(** * Connection pool of the Milvus client (milvus/client/pool.py)

    A shallow embedding of [Duration], [ConnectionRecord], [ConnectionPool]
    and [ScopedConnection], followed by the properties of the pool.

    Conventions of the embedding.
    - Python integers are [Z].  Clock readings ([time.time()]) are floats in
      the source; they are taken here as integer ticks, and every function
      that reads the clock receives the reading as an argument [now].
    - A Python object that is used as a dictionary key, or compared by
      identity, carries its identity explicitly ([ConnectionRecord.ident]).
      Records are never mutated after construction, so they are stored by
      value.
    - A method that mutates [self] returns the new state next to its result.
    - Exceptions are values of [exn]; a computation that may raise returns
      [result].
    - Each [with self._condition:] block and each operation of [queue.Queue]
      is one atomic step; callers interleave between such steps
      (module [Callers]). *)

From stdpp Require Import base option list gmap strings.
From Stdlib Require Import ZArith Lia.

Local Open Scope Z_scope.

(** ** Exceptions and results *)

Inductive exn : Type :=
| ValueError (msg : string)
| TypeError (msg : string)
| AttributeError (msg : string)
| IndexError (msg : string)
| ConnectionPoolError (msg : string)
| QueueEmpty
| QueueFull.

Inductive result (A : Type) : Type :=
| Ok (a : A)
| Raise (e : exn).

Arguments Ok {A} a.
Arguments Raise {A} e.

#[global] Instance result_ret : MRet result := fun A a => Ok a.
#[global] Instance result_bind : MBind result := fun A B f m =>
  match m with
  | Ok a => f a
  | Raise e => Raise e
  end.

(** Truth value of an [Optional[number]]: [None] and [0] are false. *)
Definition truthy (o : option Z) : bool :=
  match o with
  | Some x => negb (x =? 0)
  | None => false
  end.

(** ** class Duration *)

Module Duration.

Record t : Type := mk { start_ts : Z; end_ts : option Z }.

(** [__init__]: [start_ts = time.time()], [end_ts = None]. *)
Definition new (now : Z) : t := mk now None.

(** [stop]: refuses when [end_ts] is already set, else stamps it. *)
Definition stop (now : Z) (d : t) : bool * t :=
  if truthy (end_ts d) then (false, d)
  else (true, mk (start_ts d) (Some now)).

(** [value]: [None] while [end_ts] is falsy, else the elapsed time. *)
Definition value (d : t) : option Z :=
  if negb (truthy (end_ts d)) then None
  else (fun e => e - start_ts d) <$> end_ts d.

End Duration.

(** ** class ConnectionRecord *)

(** The transports [GrpcHandler] and [HttpHandler] are defined outside
    pool.py; only their construction from a uri is visible here. *)
Inductive Handler : Type :=
| GrpcHandler (uri : string)
| HttpHandler (uri : string).

(** The keyword arguments the pool forwards to its records: an optional
    [handler] kind and the [pre_ping] flag. *)
Record kwargs : Type := mk_kwargs { kw_handler : option string; kw_pre_ping : bool }.

Module ConnectionRecord.

Record t : Type := mk {
  ident : nat;              (* identity of the object, [id(self)] *)
  _conn_id : Z;
  _uri : string;
  recycle : Z;
  _last_use_time : Z;
  _kw_pre_ping : bool;
  _connection : Handler
}.

(** [__init__(uri, recycle, handler="GRPC", conn_id=-1, **kwargs)];
    [fresh] is the identity of the object under construction. *)
Definition new (fresh : nat) (now : Z) (uri : string) (recycle : Z)
    (conn_id : Z) (kw : kwargs) : result t :=
  let handler := default "GRPC"%string (kw_handler kw) in
  if decide (handler = "GRPC"%string) then
    Ok (mk fresh conn_id uri recycle now (kw_pre_ping kw) (GrpcHandler uri))
  else if decide (handler = "HTTP"%string) then
    Ok (mk fresh conn_id uri recycle now (kw_pre_ping kw) (HttpHandler uri))
  else Raise (ValueError "Unknown handler type. Use GRPC or HTTP").

Section Transport.
(** [handler.connect(None, None, uri=uri, timeout=2)], supplied by the
    transport. *)
Variable connect : Handler -> string -> Z -> result unit.

(** [connection]: optional liveness probe, then the transport. *)
Definition connection (r : t) : result Handler :=
  if _kw_pre_ping r then
    _ ← connect (_connection r) (_uri r) 2; Ok (_connection r)
  else Ok (_connection r).
End Transport.

End ConnectionRecord.

(** ** queue.Queue

    The standard library's FIFO queue, as far as the pool uses it:
    [maxsize <= 0] means unbounded; [put(item, False)] raises [Full] on a
    full queue; [get(block, timeout)] with [block] false takes the oldest
    item or raises [Empty] at once; with [block] true it first refuses a
    negative [timeout] with [ValueError], whatever the queue holds, and
    otherwise takes the oldest item or raises [Empty] when the timeout
    expires and nothing was put meanwhile. *)

Module Queue.

Record t (A : Type) : Type := mk { maxsize : Z; items : list A }.
Arguments mk {A} maxsize items.
Arguments maxsize {A} _.
Arguments items {A} _.

(** [queue.Queue()]: [maxsize] defaults to [0]. *)
Definition new {A : Type} : t A := mk 0 [].

Definition qsize {A : Type} (q : t A) : Z := Z.of_nat (length (items q)).

Definition full {A : Type} (q : t A) : bool :=
  (0 <? maxsize q) && (maxsize q <=? qsize q).

Definition put_nowait {A : Type} (x : A) (q : t A) : result (t A) :=
  if full q then Raise QueueFull
  else Ok (mk (maxsize q) (items q ++ [x])).

Definition get {A : Type} (block : bool) (timeout : Z) (q : t A)
    : result (A * t A) :=
  if block && (timeout <? 0)
  then Raise (ValueError "'timeout' must be a non-negative number")
  else
    match items q with
    | [] => Raise QueueEmpty
    | x :: rest => Ok (x, mk (maxsize q) rest)
    end.

End Queue.

(** ** class ConnectionPool: state, accounting and statistics *)

(** Key of the [durations] dictionary: the identity of the object used as
    key, [None] being a possible key. *)
Definition conn_key (c : option ConnectionRecord.t) : option nat :=
  ConnectionRecord.ident <$> c.

Module ConnectionPool.

Record t : Type := mk {
  _pool : Queue.t ConnectionRecord.t;
  _uri : string;
  _pool_size : Z;
  _recycle : Z;
  _wait_timeout : Z;
  _used_conn : Z;
  _kw : kwargs;
  durations : gmap (option nat) (list Duration.t)
}.

(** [__init__(uri, pool_size=10, recycle=-1, wait_timeout=10, **kwargs)] *)
Definition new (uri : string) (pool_size recycle wait_timeout : Z)
    (kw : kwargs) : t :=
  mk Queue.new uri pool_size recycle wait_timeout 0 kw ∅.

Definition set_pool (q : Queue.t ConnectionRecord.t) (p : t) : t :=
  mk q (_uri p) (_pool_size p) (_recycle p) (_wait_timeout p)
     (_used_conn p) (_kw p) (durations p).

Definition set_used_conn (n : Z) (p : t) : t :=
  mk (_pool p) (_uri p) (_pool_size p) (_recycle p) (_wait_timeout p)
     n (_kw p) (durations p).

Definition set_durations (ds : gmap (option nat) (list Duration.t)) (p : t) : t :=
  mk (_pool p) (_uri p) (_pool_size p) (_recycle p) (_wait_timeout p)
     (_used_conn p) (_kw p) ds.

Definition _inc_used (p : t) : bool * t :=
  if _used_conn p <? _pool_size p
  then (true, set_used_conn (_used_conn p + 1) p)
  else (false, p).

Definition _dec_used (p : t) : bool * t :=
  if _used_conn p =? 0 then (false, p)
  else (true, set_used_conn (_used_conn p - 1) p).

Definition _full (p : t) : bool := _pool_size p <=? _used_conn p.

Definition _empty (p : t) : bool :=
  (Queue.qsize (_pool p) <=? 0) && (_used_conn p <=? 0).

(** [record_duration(conn, duration)]; [self.durations] is a
    [defaultdict(list)], so a missing key reads as the empty list. *)
Definition record_duration (conn : option nat) (d : Duration.t) (p : t) : t :=
  let l := default [] (durations p !! conn) in
  let l := if 10000 <=? Z.of_nat (length l) then tail l else l in
  set_durations (<[conn := l ++ [d]]> (durations p)) p.

Record conn_stat : Type := mk_stat { total_time : Z; called_times : nat }.

Record stats_out : Type := mk_out {
  connections : gmap (option nat) conn_stat;   (* keyed by [id(conn)] *)
  max_time : Z;
  num : nat
}.

(** [sum(d.value for d in durations)]: adding [None] is a [TypeError]. *)
Fixpoint py_sum (acc : Z) (vs : list (option Z)) : result Z :=
  match vs with
  | [] => Ok acc
  | Some v :: rest => py_sum (acc + v) rest
  | None :: _ => Raise (TypeError "unsupported operand type(s) for +")
  end.

(** [max(take_time)]: the empty list is a [ValueError]. *)
Definition py_max (l : list Z) : result Z :=
  match l with
  | [] => Raise (ValueError "max() arg is an empty sequence")
  | x :: rest => Ok (foldl Z.max x rest)
  end.

(** The loop of [stats] over [self.durations.items()]. *)
Fixpoint stats_loop (its : list (option nat * list Duration.t))
    (conns : gmap (option nat) conn_stat) (take_time : list Z)
    : result (gmap (option nat) conn_stat * list Z) :=
  match its with
  | [] => Ok (conns, take_time)
  | (conn, ds) :: rest =>
      total ← py_sum 0 (Duration.value <$> ds);
      stats_loop rest (<[conn := mk_stat total (length ds)]> conns)
                 (take_time ++ [total])
  end.

Definition stats (p : t) : result stats_out :=
  '(conns, take_time) ← stats_loop (map_to_list (durations p)) ∅ [];
  m ← py_max take_time;
  Ok (mk_out conns m (size (durations p))).

Definition count (p : t) : Z := _used_conn p.

Definition activate_count (p : t) : Z := _used_conn p - Queue.qsize (_pool p).

(** [release]: a non-blocking [put]; [queue.Full], the one exception a
    [put] raises, is swallowed. *)
Definition release (conn : ConnectionRecord.t) (p : t) : t :=
  match Queue.put_nowait conn (_pool p) with
  | Ok q => set_pool q p
  | Raise _ => p
  end.

End ConnectionPool.

(** ** class ScopedConnection *)

Module ScopedConnection.

Record t : Type := mk {
  _connection : option ConnectionRecord.t;
  _duration : option Duration.t;
  _closed : bool
}.

(** [__init__(pool, connection)]: starts the handle's [Duration]. *)
Definition new (now : Z) (conn : ConnectionRecord.t) : t :=
  mk (Some conn) (Some (Duration.new now)) false.

Definition connection (h : t) : result (option ConnectionRecord.t) :=
  if _closed h then Raise (ValueError "Connection has been closed.")
  else Ok (_connection h).

Section Transport.
Variable connect : Handler -> string -> Z -> result unit.
(** Attribute lookup on the transport, [getattr(handler, item)]. *)
Variable Attr : Type.
Variable handler_getattr : Handler -> string -> result Attr.

Definition client (h : t) : result Handler :=
  conn ← connection h;
  match conn with
  | Some r => ConnectionRecord.connection connect r
  | None => Raise (AttributeError "'NoneType' object has no attribute 'connection'")
  end.

(** [__getattr__(item)]: forwards to the transport. *)
Definition getattr (h : t) (item : string) : result Attr :=
  c ← client h; handler_getattr c item.
End Transport.

Definition conn_id (h : t) : result Z :=
  match _connection h with
  | Some r => Ok (ConnectionRecord._conn_id r)
  | None => Raise (AttributeError "'NoneType' object has no attribute '_conn_id'")
  end.

(** [close], statement by statement; the pool is the handle's [_pool]. *)
Definition close (now : Z) (p : ConnectionPool.t) (h : t) : ConnectionPool.t * t :=
  (* self._connection and self._pool.release(self._connection) *)
  let p :=
    match _connection h with
    | Some conn => ConnectionPool.release conn p
    | None => p
    end in
  (* self._connection = None *)
  let h := mk None (_duration h) (_closed h) in
  (* if self._duration: stop it, then record it under self._connection *)
  let '(p, h) :=
    match _duration h with
    | Some d =>
        let d := snd (Duration.stop now d) in
        (ConnectionPool.record_duration (conn_key (_connection h)) d p,
         mk (_connection h) (Some d) (_closed h))
    | None => (p, h)
    end in
  (* self._duration = None; self._closed = True *)
  (p, mk (_connection h) None true).

End ScopedConnection.

(** ** ConnectionPool.fetch and its callers

    [fetch], [_inc_connection] and [_create_connection] call one another and
    touch the shared state only through [_empty], [_full], [_inc_used],
    [Queue.get] and the construction of a record under the lock.  A call of
    [fetch] is therefore a small machine whose control points are the places
    just before each of these atomic accesses. *)

Module Callers.

Inductive call : Type :=
| At_empty (block : bool)        (* fetch(block): before [self._empty()] *)
| At_get (block : bool)          (* before [self._pool.get(block, timeout)] *)
| At_full                        (* [Empty] caught, not blocking: before [self._full()] *)
| At_inc_used                    (* _inc_connection: before [self._inc_used()] *)
| At_create_connection           (* before [self._create_connection()] *)
| Returned (h : ScopedConnection.t)
| Raised (e : exn).

(** What a step does to the idle queue or the set of records; a [get]
    that is refused for its arguments leaves no event. *)
Inductive event : Type :=
| Poll                           (* get(block=False) *)
| Wait (timeout : Z)             (* get(block=True, timeout=timeout) *)
| Create (ident : nat).          (* a ConnectionRecord was constructed *)

(** The pool and the number of [ConnectionRecord] objects constructed so
    far (which is also the identity of the next one). *)
Record world : Type := mk_world { pool : ConnectionPool.t; created : nat }.

(** One atomic step of a call.  A blocking [get] that finds the queue
    empty is taken at the moment its timeout expires: until then the call
    simply is not scheduled.  [now] is the clock reading of the step; the
    record and the duration built in one step share it. *)
Definition step (now : Z) (c : call) (w : world) : call * world * list event :=
  let p := pool w in
  match c with
  | At_empty block =>
      if ConnectionPool._empty p then (At_inc_used, w, [])
      else (At_get block, w, [])
  | At_get block =>
      let ev := if block then Wait (ConnectionPool._wait_timeout p) else Poll in
      match Queue.get block (ConnectionPool._wait_timeout p)
              (ConnectionPool._pool p) with
      | Ok (conn, q) =>
          (Returned (ScopedConnection.new now conn),
           mk_world (ConnectionPool.set_pool q p) (created w), [ev])
      | Raise QueueEmpty =>
          if block
          then (Raised (ConnectionPoolError "Connection pool is full."), w, [ev])
          else (At_full, w, [ev])
      | Raise e => (Raised e, w, [])
      end
  | At_full =>
      if ConnectionPool._full p then (At_empty true, w, [])
      else (At_inc_used, w, [])
  | At_inc_used =>
      let '(ok, p) := ConnectionPool._inc_used p in
      if ok then (At_create_connection, mk_world p (created w), [])
      else (At_empty true, mk_world p (created w), [])
  | At_create_connection =>
      match ConnectionRecord.new (created w) now (ConnectionPool._uri p)
              (ConnectionPool._recycle p) (ConnectionPool._used_conn p - 1)
              (ConnectionPool._kw p) with
      | Ok conn =>
          (Returned (ScopedConnection.new now conn),
           mk_world p (S (created w)), [Create (created w)])
      | Raise e => (Raised e, w, [])
      end
  | Returned _ | Raised _ => (c, w, [])
  end.

Definition finished (c : call) : bool :=
  match c with
  | Returned _ | Raised _ => true
  | _ => false
  end.

(** A call run to completion with no other caller in between; [None]
    when [fuel] steps do not reach the end of the call. *)
Fixpoint run (fuel : nat) (now : Z) (c : call) (w : world) (tr : list event)
    : option (call * world * list event) :=
  if finished c then Some (c, w, tr)
  else
    match fuel with
    | O => None
    | S fuel =>
        let '(c, w, evs) := step now c w in run fuel now c w (tr ++ evs)
    end.

(** [pool.fetch(block)] on its own. *)
Definition fetch (fuel : nat) (now : Z) (block : bool) (w : world)
    : option (call * world * list event) :=
  run fuel now (At_empty block) w [].

(** *** Several callers

    The calls in progress or finished, in the order they were made; a
    handle is known by the call that returned it.  [close] is one step: it
    touches the shared state twice (the [put] on the idle queue, then
    [record_duration]), and no step of [fetch] reads [durations], so the
    two are not told apart by the counter, the queue or the records as
    long as one handle is not closed by two callers at once. *)
Record system : Type := mk_system { shared : world; calls : list call }.

Inductive label : Type :=
| Fetch (block : bool)                 (* a caller enters [pool.fetch(block)] *)
| Step (i : nat) (now : Z)             (* call [i] takes its next step *)
| Close (i : nat) (now : Z)            (* [close()] on the handle of call [i] *)
| Release (conn : ConnectionRecord.t). (* [pool.release(conn)] called directly *)

Definition exec (s : system) (l : label) : system :=
  match l with
  | Fetch block => mk_system (shared s) (calls s ++ [At_empty block])
  | Step i now =>
      match calls s !! i with
      | Some c =>
          let '(c, w, _) := step now c (shared s) in
          mk_system w (<[i := c]> (calls s))
      | None => s
      end
  | Close i now =>
      match calls s !! i with
      | Some (Returned h) =>
          let '(p, h) := ScopedConnection.close now (pool (shared s)) h in
          mk_system (mk_world p (created (shared s)))
                    (<[i := Returned h]> (calls s))
      | _ => s
      end
  | Release conn =>
      mk_system (mk_world (ConnectionPool.release conn (pool (shared s)))
                          (created (shared s)))
                (calls s)
  end.

Definition init (p : ConnectionPool.t) : system := mk_system (mk_world p O) [].

Definition execs (s : system) (sched : list label) : system := foldl exec s sched.

(** No call is in flight. *)
Definition quiescent (s : system) : bool := forallb finished (calls s).

(** Calls that hold a reserved slot for which no record exists yet. *)
Definition reserved (c : call) : nat :=
  match c with At_create_connection => 1%nat | _ => 0%nat end.

(** Handles that still hold their record. *)
Definition holding (c : call) : nat :=
  match c with
  | Returned h =>
      match ScopedConnection._connection h with
      | Some _ => 1%nat
      | None => 0%nat
      end
  | _ => 0%nat
  end.

Fixpoint tally (f : call -> nat) (cs : list call) : nat :=
  match cs with
  | [] => 0%nat
  | c :: cs => (f c + tally f cs)%nat
  end.

(** Schedules in which records come back only through [close]. *)
Definition scoped (l : label) : bool :=
  match l with Release _ => false | _ => true end.

(** Slot accounting: every record constructed, and every slot reserved
    for a record under construction, was paid for by an increment of
    [_used_conn]. *)
Definition accounted (s : system) : Prop :=
  0 ≤ ConnectionPool._used_conn (pool (shared s)) ∧
  Z.of_nat (created (shared s)) + Z.of_nat (tally reserved (calls s))
  ≤ ConnectionPool._used_conn (pool (shared s)).

(** Record accounting: the idle queue is the unbounded one built by
    [__init__], and every record constructed is either idle or held by
    an open handle. *)
Definition placed (s : system) : Prop :=
  Queue.maxsize (ConnectionPool._pool (pool (shared s))) = 0 ∧
  (length (Queue.items (ConnectionPool._pool (pool (shared s))))
   + tally holding (calls s))%nat = created (shared s).

End Callers.

(** ** record_duration, access by access

    [record_duration] takes no lock.  Its accesses to the shared history
    (the test of its length, [pop(0)], [append]) are each atomic, and
    another caller may act between two of them.  [ConnectionPool.record_duration]
    above is the method run without interruption. *)

Module Recording.

Inductive recorder : Type :=
| Testing (conn : option nat) (d : Duration.t)     (* before [len(self.durations[conn]) >= 10000] *)
| Popping (conn : option nat) (d : Duration.t)     (* before [self.durations[conn].pop(0)] *)
| Appending (conn : option nat) (d : Duration.t)   (* before [self.durations[conn].append(duration)] *)
| Recorded
| Failed (e : exn).

(** [self.durations[conn]]: a [defaultdict] creates the empty list on a
    miss. *)
Definition read (conn : option nat) (p : ConnectionPool.t)
    : list Duration.t * ConnectionPool.t :=
  let l := default [] (ConnectionPool.durations p !! conn) in
  (l, ConnectionPool.set_durations (<[conn := l]> (ConnectionPool.durations p)) p).

Definition step (r : recorder) (p : ConnectionPool.t) : recorder * ConnectionPool.t :=
  match r with
  | Testing conn d =>
      let '(l, p) := read conn p in
      if 10000 <=? Z.of_nat (length l) then (Popping conn d, p)
      else (Appending conn d, p)
  | Popping conn d =>
      let '(l, p) := read conn p in
      match l with
      | [] => (Failed (IndexError "pop from empty list"), p)
      | _ :: rest =>
          (Appending conn d,
           ConnectionPool.set_durations (<[conn := rest]> (ConnectionPool.durations p)) p)
      end
  | Appending conn d =>
      let '(l, p) := read conn p in
      (Recorded,
       ConnectionPool.set_durations (<[conn := l ++ [d]]> (ConnectionPool.durations p)) p)
  | Recorded | Failed _ => (r, p)
  end.

(** The pool and the calls of [record_duration] in progress; a schedule
    names, step by step, the call that moves. *)
Definition exec (st : ConnectionPool.t * list recorder) (i : nat)
    : ConnectionPool.t * list recorder :=
  match st.2 !! i with
  | Some r => let '(r, p) := step r st.1 in (p, <[i := r]> st.2)
  | None => st
  end.

Definition execs (st : ConnectionPool.t * list recorder) (sched : list nat)
    : ConnectionPool.t * list recorder :=
  foldl exec st sched.

End Recording.

(** ** Vocabulary of the statements *)

(** A duration whose [stop] took effect: [end_ts] is set and truthy. *)
Definition stopped (d : Duration.t) : Prop := truthy (Duration.end_ts d) = true.

(** Elapsed time of a stopped duration and of a usage history. *)
Definition elapsed (d : Duration.t) : Z :=
  default 0 (Duration.end_ts d) - Duration.start_ts d.

Definition total_elapsed (ds : list Duration.t) : Z :=
  foldr (fun d acc => elapsed d + acc) 0 ds.

(** [record_duration] called for each duration of [ds] in turn, under one key. *)
Definition record_all (k : option nat) (ds : list Duration.t)
    (p : ConnectionPool.t) : ConnectionPool.t :=
  foldl (fun p d => ConnectionPool.record_duration k d p) p ds.

(** [record_duration] called for each (key, duration) pair in turn. *)
Definition record_each (kds : list (option nat * Duration.t))
    (p : ConnectionPool.t) : ConnectionPool.t :=
  foldl (fun p kd => ConnectionPool.record_duration kd.1 kd.2 p) p kds.

(** Every usage history of the pool holds at most 10,000 durations. *)
Definition capped (p : ConnectionPool.t) : Prop :=
  ∀ k l, ConnectionPool.durations p !! k = Some l → Z.of_nat (length l) ≤ 10000.

(** The per-identity entry [stats] is expected to report for a history. *)
Definition stat_of (ds : list Duration.t) : ConnectionPool.conn_stat :=
  ConnectionPool.mk_stat (total_elapsed ds) (length ds).

(** Every duration the pool has recorded was stopped. *)
Definition all_stopped (p : ConnectionPool.t) : Prop :=
  ∀ k ds, ConnectionPool.durations p !! k = Some ds → Forall stopped ds.

(** The clock never reads [0] when a handle is closed. *)
Definition clock_set (l : Callers.label) : bool :=
  match l with
  | Callers.Close _ now => negb (now =? 0)
  | _ => true
  end.

(** [close()] called again and again on one handle, at the given times. *)
Definition closes (nows : list Z) (ph : ConnectionPool.t * ScopedConnection.t)
    : ConnectionPool.t * ScopedConnection.t :=
  foldl (fun ph now => ScopedConnection.close now ph.1 ph.2) ph nows.

(** The handler kinds [ConnectionRecord] accepts; no [handler] keyword
    means "GRPC". *)
Definition known_handler (kw : kwargs) : Prop :=
  kw_handler kw = None ∨ kw_handler kw = Some "GRPC"%string
  ∨ kw_handler kw = Some "HTTP"%string.

(** Slot accounting when no construction fails: the counter is exactly the
    records constructed plus the slots reserved. *)
Definition balanced (s : Callers.system) : Prop :=
  Z.of_nat (Callers.created (Callers.shared s))
  + Z.of_nat (Callers.tally Callers.reserved (Callers.calls s))
  = ConnectionPool._used_conn (Callers.pool (Callers.shared s)).

(** The record a call holds: the one of its handle, while it is open. *)
Definition held (c : Callers.call) : list nat :=
  match c with
  | Callers.Returned h =>
      match ScopedConnection._connection h with
      | Some r => [ConnectionRecord.ident r]
      | None => []
      end
  | _ => []
  end.

(** The identities of the idle records followed by those of the records
    held by handles. *)
Definition owned (s : Callers.system) : list nat :=
  (ConnectionRecord.ident
     <$> Queue.items (ConnectionPool._pool (Callers.pool (Callers.shared s))))
  ++ (Callers.calls s ≫= held).

(** Every record is in one place only, and was constructed by the pool. *)
Definition exclusive (s : Callers.system) : Prop :=
  Queue.maxsize (ConnectionPool._pool (Callers.pool (Callers.shared s))) = 0 ∧
  NoDup (owned s) ∧
  ∀ x, x ∈ owned s → (x < Callers.created (Callers.shared s))%nat.

(** A bound on the steps a call still has to take. *)
Definition rank (c : Callers.call) (w : Callers.world) : nat :=
  match c with
  | Callers.At_empty true =>
      if 0 <? ConnectionPool._used_conn (Callers.pool w) then 2%nat else 4%nat
  | Callers.At_empty false => 6%nat
  | Callers.At_get true => 1%nat
  | Callers.At_get false => 5%nat
  | Callers.At_full => 4%nat
  | Callers.At_inc_used => 3%nat
  | Callers.At_create_connection => 1%nat
  | Callers.Returned _ | Callers.Raised _ => 0%nat
  end.

(** The steps a schedule gives to call [i]. *)
Fixpoint steps_of (i : nat) (sched : list Callers.label) : nat :=
  match sched with
  | [] => 0%nat
  | Callers.Step j _ :: sched =>
      if decide (j = i) then S (steps_of i sched) else steps_of i sched
  | _ :: sched => steps_of i sched
  end.

(** Every key of [durations] is [None]. *)
Definition only_none (p : ConnectionPool.t) : Prop :=
  ∀ k, k ≠ None → ConnectionPool.durations p !! k = None.

(** * Properties *)

Import Callers.

(** ** Accounting lemmas shared by the results below *)

Lemma release_used_conn conn p :
  ConnectionPool._used_conn (ConnectionPool.release conn p) = ConnectionPool._used_conn p.
Proof. unfold ConnectionPool.release. by destruct (Queue.put_nowait _ _). Qed.

Lemma release_pool_size conn p :
  ConnectionPool._pool_size (ConnectionPool.release conn p) = ConnectionPool._pool_size p.
Proof. unfold ConnectionPool.release. by destruct (Queue.put_nowait _ _). Qed.

Lemma release_durations conn p :
  ConnectionPool.durations (ConnectionPool.release conn p) = ConnectionPool.durations p.
Proof. unfold ConnectionPool.release. by destruct (Queue.put_nowait _ _). Qed.

Lemma release_unbounded conn p :
  Queue.maxsize (ConnectionPool._pool p) = 0 →
  ConnectionPool._pool (ConnectionPool.release conn p)
  = Queue.mk 0 (Queue.items (ConnectionPool._pool p) ++ [conn]).
Proof.
  intros Hm. unfold ConnectionPool.release, Queue.put_nowait, Queue.full.
  rewrite Hm. reflexivity.
Qed.

Lemma get_Ok {A : Type} block timeout (q q' : Queue.t A) x :
  Queue.get block timeout q = Ok (x, q') →
  Queue.items q = x :: Queue.items q' ∧ Queue.maxsize q' = Queue.maxsize q.
Proof.
  unfold Queue.get. destruct (block && (timeout <? 0)); [done|].
  destruct (Queue.items q) as [|y rest]; [done|]. intros ?; by simplify_eq.
Qed.

Lemma get_allowed {A : Type} block timeout (q : Queue.t A) :
  block = false ∨ 0 ≤ timeout →
  Queue.get block timeout q
  = match Queue.items q with
    | [] => Raise QueueEmpty
    | x :: rest => Ok (x, Queue.mk (Queue.maxsize q) rest)
    end.
Proof.
  intros Hok. unfold Queue.get.
  destruct block; [|done]. destruct Hok as [|Hok]; [done|].
  by destruct (Z.ltb_spec timeout 0); [lia|].
Qed.

Lemma close_used_conn now p h :
  ConnectionPool._used_conn (ScopedConnection.close now p h).1 = ConnectionPool._used_conn p.
Proof.
  unfold ScopedConnection.close.
  destruct (ScopedConnection._connection h), (ScopedConnection._duration h);
    simpl; by rewrite ?release_used_conn.
Qed.

Lemma close_pool_size now p h :
  ConnectionPool._pool_size (ScopedConnection.close now p h).1 = ConnectionPool._pool_size p.
Proof.
  unfold ScopedConnection.close.
  destruct (ScopedConnection._connection h), (ScopedConnection._duration h);
    simpl; by rewrite ?release_pool_size.
Qed.

Lemma close_pool now p h :
  ConnectionPool._pool (ScopedConnection.close now p h).1
  = match ScopedConnection._connection h with
    | Some conn => ConnectionPool._pool (ConnectionPool.release conn p)
    | None => ConnectionPool._pool p
    end.
Proof.
  unfold ScopedConnection.close.
  by destruct (ScopedConnection._connection h), (ScopedConnection._duration h).
Qed.

Lemma close_handle now p h :
  (ScopedConnection.close now p h).2 = ScopedConnection.mk None None true.
Proof.
  unfold ScopedConnection.close.
  by destruct (ScopedConnection._connection h), (ScopedConnection._duration h).
Qed.

Lemma tally_app f cs ds : tally f (cs ++ ds) = (tally f cs + tally f ds)%nat.
Proof. induction cs as [|c cs IH]; simpl; [done | rewrite IH; lia]. Qed.

Lemma tally_insert f cs i c c' :
  cs !! i = Some c →
  (tally f (<[i := c']> cs) + f c = tally f cs + f c')%nat.
Proof.
  revert i. induction cs as [|d cs IH]; intros [|i] Hi; simplify_eq/=.
  - lia.
  - specialize (IH _ Hi). lia.
Qed.

(** What one step of a call does to the counter, the capacity and the
    number of records. *)
Lemma step_accounting now c w c' w' evs :
  step now c w = (c', w', evs) →
  ConnectionPool._pool_size (pool w') = ConnectionPool._pool_size (pool w) ∧
  ConnectionPool._used_conn (pool w) ≤ ConnectionPool._used_conn (pool w') ∧
  (ConnectionPool._used_conn (pool w) ≤ ConnectionPool._pool_size (pool w) →
   ConnectionPool._used_conn (pool w') ≤ ConnectionPool._pool_size (pool w)) ∧
  Z.of_nat (created w') + Z.of_nat (reserved c') + ConnectionPool._used_conn (pool w)
  ≤ Z.of_nat (created w) + Z.of_nat (reserved c) + ConnectionPool._used_conn (pool w').
Proof.
  intros Hs. destruct c; simpl in Hs.
  - destruct (ConnectionPool._empty _); simplify_eq/=; lia.
  - destruct (Queue.get _ _ _) as [[conn q]|[]]; try destruct block;
      simplify_eq/=; lia.
  - destruct (ConnectionPool._full _); simplify_eq/=; lia.
  - unfold ConnectionPool._inc_used in Hs.
    destruct (Z.ltb_spec (ConnectionPool._used_conn (pool w))
                (ConnectionPool._pool_size (pool w))); simplify_eq/=; lia.
  - destruct (ConnectionRecord.new _ _ _ _ _ _); simplify_eq/=; lia.
  - simplify_eq/=; lia.
  - simplify_eq/=; lia.
Qed.

Lemma exec_pool_size s l :
  ConnectionPool._pool_size (pool (shared (exec s l)))
  = ConnectionPool._pool_size (pool (shared s)).
Proof.
  destruct l as [b|i now|i now|conn]; simpl; try done.
  - destruct (calls s !! i) as [c|]; [|done].
    destruct (step now c (shared s)) as [[c' w'] evs] eqn:Hs.
    by apply step_accounting in Hs as (? & _).
  - destruct (calls s !! i) as [[| | | | |h|]|]; try done.
    pose proof (close_pool_size now (pool (shared s)) h) as Hc.
    by destruct (ScopedConnection.close _ _ _).
  - apply release_pool_size.
Qed.

Lemma exec_used_conn_mono s l :
  ConnectionPool._used_conn (pool (shared s))
  ≤ ConnectionPool._used_conn (pool (shared (exec s l))).
Proof.
  destruct l as [b|i now|i now|conn]; simpl; try done.
  - destruct (calls s !! i) as [c|]; [|done].
    destruct (step now c (shared s)) as [[c' w'] evs] eqn:Hs.
    by apply step_accounting in Hs as (_ & ? & _).
  - destruct (calls s !! i) as [[| | | | |h|]|]; try done.
    pose proof (close_used_conn now (pool (shared s)) h) as Hc.
    destruct (ScopedConnection.close _ _ _); simpl in *. lia.
  - rewrite release_used_conn. lia.
Qed.

Lemma exec_used_conn_bound s l :
  ConnectionPool._used_conn (pool (shared s)) ≤ ConnectionPool._pool_size (pool (shared s)) →
  ConnectionPool._used_conn (pool (shared (exec s l)))
  ≤ ConnectionPool._pool_size (pool (shared s)).
Proof.
  intros Hle. destruct l as [b|i now|i now|conn]; simpl; try done.
  - destruct (calls s !! i) as [c|]; [|done].
    destruct (step now c (shared s)) as [[c' w'] evs] eqn:Hs.
    apply step_accounting in Hs as (_ & _ & H & _). by apply H.
  - destruct (calls s !! i) as [[| | | | |h|]|]; try done.
    pose proof (close_used_conn now (pool (shared s)) h) as Hc.
    destruct (ScopedConnection.close _ _ _); simpl in *. lia.
  - rewrite release_used_conn. lia.
Qed.

Lemma exec_accounted s l : accounted s → accounted (exec s l).
Proof.
  intros [H0 Hres]. split.
  { pose proof (exec_used_conn_mono s l). lia. }
  destruct l as [b|i now|i now|conn]; simpl.
  - rewrite tally_app. simpl. lia.
  - destruct (calls s !! i) as [c|] eqn:Hi; [|done].
    destruct (step now c (shared s)) as [[c' w'] evs] eqn:Hs.
    apply step_accounting in Hs as (_ & _ & _ & H). simpl.
    pose proof (tally_insert reserved _ _ _ c' Hi). lia.
  - destruct (calls s !! i) as [[| | | | |h|]|] eqn:Hi; try done.
    pose proof (close_used_conn now (pool (shared s)) h) as Hc.
    destruct (ScopedConnection.close _ _ _) as [p' h']; simpl in *.
    pose proof (tally_insert reserved _ _ _ (Returned h') Hi). simpl in *. lia.
  - rewrite release_used_conn. lia.
Qed.

Lemma execs_snoc s sched l : execs s (sched ++ [l]) = exec (execs s sched) l.
Proof. unfold execs. by rewrite foldl_app. Qed.

Lemma execs_app s sched1 sched2 :
  execs s (sched1 ++ sched2) = execs (execs s sched1) sched2.
Proof. unfold execs. by rewrite foldl_app. Qed.

Lemma execs_pool_size s sched :
  ConnectionPool._pool_size (pool (shared (execs s sched)))
  = ConnectionPool._pool_size (pool (shared s)).
Proof.
  induction sched as [|l sched IH] using rev_ind; [done|].
  by rewrite execs_snoc, exec_pool_size.
Qed.

Lemma execs_used_conn_mono s sched :
  ConnectionPool._used_conn (pool (shared s))
  ≤ ConnectionPool._used_conn (pool (shared (execs s sched))).
Proof.
  induction sched as [|l sched IH] using rev_ind; [done|].
  rewrite execs_snoc. pose proof (exec_used_conn_mono (execs s sched) l). lia.
Qed.

Lemma execs_used_conn_bound s sched :
  ConnectionPool._used_conn (pool (shared s)) ≤ ConnectionPool._pool_size (pool (shared s)) →
  ConnectionPool._used_conn (pool (shared (execs s sched)))
  ≤ ConnectionPool._pool_size (pool (shared s)).
Proof.
  intros Hle. induction sched as [|l sched IH] using rev_ind; [done|].
  rewrite execs_snoc. rewrite <- (execs_pool_size s sched).
  apply exec_used_conn_bound. by rewrite execs_pool_size.
Qed.

Lemma execs_accounted s sched : accounted s → accounted (execs s sched).
Proof.
  intros Hs. induction sched as [|l sched IH] using rev_ind; [done|].
  rewrite execs_snoc. by apply exec_accounted.
Qed.

Lemma init_accounted p : ConnectionPool._used_conn p = 0 → accounted (init p).
Proof. intros H. unfold accounted. simpl. lia. Qed.

(** What one step of a call does to the idle queue and the open handles. *)
Lemma step_placing now c w c' w' evs :
  step now c w = (c', w', evs) →
  Queue.maxsize (ConnectionPool._pool (pool w'))
  = Queue.maxsize (ConnectionPool._pool (pool w)) ∧
  (length (Queue.items (ConnectionPool._pool (pool w'))) + holding c' + created w
   = length (Queue.items (ConnectionPool._pool (pool w))) + holding c + created w')%nat.
Proof.
  intros Hs. destruct c; simpl in Hs.
  - destruct (ConnectionPool._empty _); by simplify_eq/=.
  - destruct (Queue.get _ _ _) as [[conn q]|[]] eqn:Hg; try destruct block;
      simplify_eq/=; try (split; lia).
    + apply get_Ok in Hg as [Hq Hm]. rewrite Hq. simpl. split; [done | lia].
    + apply get_Ok in Hg as [Hq Hm]. rewrite Hq. simpl. split; [done | lia].
  - destruct (ConnectionPool._full _); by simplify_eq/=.
  - unfold ConnectionPool._inc_used in Hs.
    destruct (_ <? _); by simplify_eq/=.
  - destruct (ConnectionRecord.new _ _ _ _ _ _); simplify_eq/=; split; lia.
  - by simplify_eq/=.
  - by simplify_eq/=.
Qed.

Lemma close_placing now p h p' h' :
  ScopedConnection.close now p h = (p', h') →
  Queue.maxsize (ConnectionPool._pool p) = 0 →
  Queue.maxsize (ConnectionPool._pool p') = 0 ∧
  (length (Queue.items (ConnectionPool._pool p')) + holding (Returned h')
   = length (Queue.items (ConnectionPool._pool p)) + holding (Returned h))%nat.
Proof.
  intros Hc Hm.
  pose proof (close_pool now p h) as Hp. pose proof (close_handle now p h) as Hh.
  rewrite Hc in Hp, Hh. simpl in Hp, Hh. subst h'. rewrite Hp. simpl.
  destruct (ScopedConnection._connection h) as [conn|].
  - rewrite release_unbounded by done. simpl. rewrite length_app. simpl. lia.
  - split; [done | lia].
Qed.

Lemma exec_placed s l : scoped l = true → placed s → placed (exec s l).
Proof.
  intros Hl [Hm Hn]. unfold placed.
  destruct l as [b|i now|i now|conn]; simpl; try done.
  - split; [done|]. rewrite tally_app. simpl. lia.
  - destruct (calls s !! i) as [c|] eqn:Hi; [|done].
    destruct (step now c (shared s)) as [[c' w'] evs] eqn:Hs.
    apply step_placing in Hs as [Hm' Hn']. split; simpl; [congruence|].
    pose proof (tally_insert holding _ _ _ c' Hi). lia.
  - destruct (calls s !! i) as [[| | | | |h|]|] eqn:Hi; try done.
    destruct (ScopedConnection.close _ _ _) as [p' h'] eqn:Hc.
    apply close_placing in Hc as [Hm' Hn']; [|done]. split; simpl; [done|].
    pose proof (tally_insert holding _ _ _ (Returned h') Hi). simpl in *. lia.
Qed.

Lemma execs_placed s sched :
  forallb scoped sched = true → placed s → placed (execs s sched).
Proof.
  intros Hsc Hs. induction sched as [|l sched IH] using rev_ind; [done|].
  rewrite forallb_app in Hsc. apply andb_prop in Hsc as [H1 H2].
  simpl in H2. rewrite andb_true_r in H2.
  rewrite execs_snoc. apply exec_placed; auto.
Qed.

Lemma init_placed uri pool_size recycle wait_timeout kw :
  placed (init (ConnectionPool.new uri pool_size recycle wait_timeout kw)).
Proof. by split. Qed.

(** [C1]  For every schedule of fetch calls, their atomic steps, handle
    closes and direct releases, issued by any number of callers on a pool
    built with a capacity [pool_size >= 0], the counter returned by
    [count()] stays between [0] and [pool_size].  The records constructed,
    together with the slots reserved for records under construction, never
    outnumber the successful increments of the counter, and the
    check-and-increment [_inc_used] refuses, leaving the pool as it is,
    once the counter has reached the capacity. *)
Theorem in_use_count_within_capacity
    uri pool_size recycle wait_timeout kw (sched : list label) :
  0 ≤ pool_size →
  let s := execs (init (ConnectionPool.new uri pool_size recycle wait_timeout kw)) sched in
  (0 ≤ ConnectionPool.count (pool (shared s)) ≤ pool_size) ∧
  Z.of_nat (created (shared s)) + Z.of_nat (tally reserved (calls s))
    ≤ ConnectionPool.count (pool (shared s)) ∧
  (∀ p, ConnectionPool._pool_size p ≤ ConnectionPool.count p →
        ConnectionPool._inc_used p = (false, p)).
Proof.
  intros Hsize s.
  set (p0 := ConnectionPool.new uri pool_size recycle wait_timeout kw) in *.
  destruct (execs_accounted (init p0) sched (init_accounted p0 eq_refl)) as [H0 Hres].
  pose proof (execs_used_conn_bound (init p0) sched) as Hub.
  simpl in Hub. specialize (Hub Hsize).
  unfold ConnectionPool.count. fold s in H0, Hres, Hub.
  repeat split; try done.
  intros p Hp. unfold ConnectionPool._inc_used, ConnectionPool.count in *.
  destruct (Z.ltb_spec (ConnectionPool._used_conn p) (ConnectionPool._pool_size p));
    [lia | done].
Qed.

Lemma in_use_count_within_capacity_witness :
  0 ≤ 2 ∧
  let s := execs (init (ConnectionPool.new "tcp://127.0.0.1:19530" 2 (-1) 10
                          (mk_kwargs None false)))
             [Fetch false; Fetch true; Step 0 7; Step 1 7; Step 0 8; Step 1 8;
              Step 0 9; Step 1 9; Close 0 12; Fetch false; Step 2 13] in
  (0 ≤ ConnectionPool.count (pool (shared s)) ≤ 2) ∧
  Z.of_nat (created (shared s)) + Z.of_nat (tally reserved (calls s))
    ≤ ConnectionPool.count (pool (shared s)) ∧
  (∀ p, ConnectionPool._pool_size p ≤ ConnectionPool.count p →
        ConnectionPool._inc_used p = (false, p)).
Proof.
  split; [lia|].
  apply (in_use_count_within_capacity "tcp://127.0.0.1:19530" 2 (-1) 10
           (mk_kwargs None false)). lia.
Defined.

(** [C9], as stated, fails: with capacity 1, one fetch followed by the
    close of its handle leaves the system quiescent with one idle record
    and a counter of 1, so that [idle_queue.size() + in_use_count = 2]. *)
Lemma idle_plus_in_use_exceeds_capacity :
  let s := execs (init (ConnectionPool.new "tcp://127.0.0.1:19530" 1 (-1) 10
                          (mk_kwargs None false)))
             [Fetch false; Step 0 5; Step 0 5; Step 0 5; Close 0 9] in
  quiescent s = true ∧
  ¬ (Queue.qsize (ConnectionPool._pool (pool (shared s)))
     + ConnectionPool.count (pool (shared s))
     ≤ ConnectionPool._pool_size (pool (shared s))).
Proof. vm_compute. split; [reflexivity | intros H; apply H; reflexivity]. Qed.

(** [C9], amended.  At every point (quiescent or not) of every schedule in
    which records return to the pool through the close of their handle, on
    a pool of capacity [pool_size >= 0]: the idle queue is no longer than
    the counter, and the counter is at most the capacity.  [release] never
    raises: on a full queue it returns the pool unchanged, dropping the
    record; the idle queue of the pool being unbounded, it is never full,
    and every release appends its record. *)
Theorem idle_within_in_use_within_capacity
    uri pool_size recycle wait_timeout kw (sched : list label) :
  0 ≤ pool_size →
  forallb scoped sched = true →
  let s := execs (init (ConnectionPool.new uri pool_size recycle wait_timeout kw)) sched in
  let p := pool (shared s) in
  (Queue.qsize (ConnectionPool._pool p) ≤ ConnectionPool.count p ≤ pool_size) ∧
  (∀ conn, Queue.full (ConnectionPool._pool p) = false ∧
           Queue.items (ConnectionPool._pool (ConnectionPool.release conn p))
           = Queue.items (ConnectionPool._pool p) ++ [conn]) ∧
  (∀ conn q, Queue.full (ConnectionPool._pool q) = true →
             ConnectionPool.release conn q = q).
Proof.
  intros Hsize Hsc s p.
  set (p0 := ConnectionPool.new uri pool_size recycle wait_timeout kw) in *.
  destruct (execs_accounted (init p0) sched (init_accounted p0 eq_refl)) as [H0 Hres].
  pose proof (execs_used_conn_bound (init p0) sched) as Hub.
  simpl in Hub. specialize (Hub Hsize).
  destruct (execs_placed (init p0) sched Hsc
              (init_placed uri pool_size recycle wait_timeout kw)) as [Hm Hn].
  fold s in H0, Hres, Hub, Hm, Hn. fold p in H0, Hres, Hub, Hm, Hn.
  unfold ConnectionPool.count, Queue.qsize. repeat split.
  - lia.
  - done.
  - unfold Queue.full. by rewrite Hm.
  - by rewrite release_unbounded.
  - intros conn q Hq. unfold ConnectionPool.release, Queue.put_nowait.
    by rewrite Hq.
Qed.

Lemma idle_within_in_use_within_capacity_witness :
  0 ≤ 1 ∧
  forallb scoped [Fetch false; Step 0 5; Step 0 5; Step 0 5; Close 0 9] = true ∧
  let s := execs (init (ConnectionPool.new "tcp://127.0.0.1:19530" 1 (-1) 10
                          (mk_kwargs None false)))
             [Fetch false; Step 0 5; Step 0 5; Step 0 5; Close 0 9] in
  let p := pool (shared s) in
  (Queue.qsize (ConnectionPool._pool p) ≤ ConnectionPool.count p ≤ 1) ∧
  (∀ conn, Queue.full (ConnectionPool._pool p) = false ∧
           Queue.items (ConnectionPool._pool (ConnectionPool.release conn p))
           = Queue.items (ConnectionPool._pool p) ++ [conn]) ∧
  (∀ conn q, Queue.full (ConnectionPool._pool q) = true →
             ConnectionPool.release conn q = q).
Proof.
  split; [lia|]. split; [reflexivity|].
  apply (idle_within_in_use_within_capacity "tcp://127.0.0.1:19530" 1 (-1) 10
           (mk_kwargs None false)); [lia | reflexivity].
Defined.

(** [C10]  Nothing decreases the counter: [release] and [close] leave it
    as it is, and along every schedule of fetch calls, steps, closes and
    direct releases [count()] can only grow.  Once the pool has constructed
    [pool_size] records, [count()] equals [pool_size] and stays so. *)
Theorem count_never_decreases
    uri pool_size recycle wait_timeout kw (sched more : list label) :
  let s := execs (init (ConnectionPool.new uri pool_size recycle wait_timeout kw)) sched in
  let s' := execs s more in
  (∀ conn p, ConnectionPool.count (ConnectionPool.release conn p) = ConnectionPool.count p) ∧
  (∀ now p h, ConnectionPool.count (ScopedConnection.close now p h).1 = ConnectionPool.count p) ∧
  ConnectionPool.count (pool (shared s)) ≤ ConnectionPool.count (pool (shared s')) ∧
  (Z.of_nat (created (shared s)) = pool_size →
   ConnectionPool.count (pool (shared s')) = pool_size).
Proof.
  intros s s'. unfold ConnectionPool.count.
  split; [intros; apply release_used_conn|].
  split; [intros; apply close_used_conn|].
  split; [apply execs_used_conn_mono|].
  intros Hcr.
  set (p0 := ConnectionPool.new uri pool_size recycle wait_timeout kw) in *.
  destruct (execs_accounted (init p0) sched (init_accounted p0 eq_refl)) as [H0 Hres].
  fold s in H0, Hres.
  pose proof (execs_used_conn_mono s more) as Hmono. fold s' in Hmono.
  pose proof (execs_used_conn_bound (init p0) (sched ++ more)) as Hub.
  rewrite execs_app in Hub. fold s in Hub. fold s' in Hub. simpl in Hub.
  lia.
Qed.

Lemma count_never_decreases_witness :
  let s := execs (init (ConnectionPool.new "tcp://127.0.0.1:19530" 1 (-1) 10
                          (mk_kwargs None false)))
             [Fetch false; Step 0 5; Step 0 5; Step 0 5] in
  let s' := execs s [Close 0 9; Fetch false; Step 1 11; Step 1 11; Close 1 15] in
  Z.of_nat (created (shared s)) = 1 ∧
  ConnectionPool.count (pool (shared s)) ≤ ConnectionPool.count (pool (shared s')) ∧
  ConnectionPool.count (pool (shared s')) = 1.
Proof.
  intros s s'.
  destruct (count_never_decreases "tcp://127.0.0.1:19530" 1 (-1) 10
              (mk_kwargs None false)
              [Fetch false; Step 0 5; Step 0 5; Step 0 5]
              [Close 0 9; Fetch false; Step 1 11; Step 1 11; Close 1 15])
    as (_ & _ & Hmono & Hstay).
  split; [reflexivity|]. split; [exact Hmono|]. apply Hstay. reflexivity.
Defined.

(** ** A call of [fetch] on its own *)

Lemma run_finished fuel now c w tr :
  finished c = true → run fuel now c w tr = Some (c, w, tr).
Proof. intros H. destruct fuel; simpl; by rewrite H. Qed.

Lemma run_step fuel now c w tr :
  finished c = false →
  run (S fuel) now c w tr
  = let '(c', w', evs) := step now c w in run fuel now c' w' (tr ++ evs).
Proof. intros H. simpl. by rewrite H. Qed.

(** From here on [run] unfolds through the two equations above only. *)
Arguments run : simpl never.

Lemma empty_false_used p :
  0 < ConnectionPool._used_conn p → ConnectionPool._empty p = false.
Proof.
  intros H. unfold ConnectionPool._empty.
  destruct (Z.leb_spec (ConnectionPool._used_conn p) 0); [lia|].
  apply andb_false_r.
Qed.

Lemma empty_false_idle p conn rest :
  Queue.items (ConnectionPool._pool p) = conn :: rest → ConnectionPool._empty p = false.
Proof. intros H. unfold ConnectionPool._empty, Queue.qsize. by rewrite H. Qed.

Lemma empty_true p :
  Queue.items (ConnectionPool._pool p) = [] → ConnectionPool._used_conn p ≤ 0 →
  ConnectionPool._empty p = true.
Proof.
  intros Hq Hu. unfold ConnectionPool._empty, Queue.qsize. rewrite Hq. simpl.
  by destruct (Z.leb_spec (ConnectionPool._used_conn p) 0); [|lia].
Qed.

(** A blocking wait (with a timeout the queue accepts) on an empty idle
    queue, with at least one record accounted for, ends in
    [ConnectionPoolError] and changes nothing. *)
Lemma blocking_fetch_nothing_idle fuel now w tr :
  0 < ConnectionPool._used_conn (pool w) →
  Queue.items (ConnectionPool._pool (pool w)) = [] →
  0 ≤ ConnectionPool._wait_timeout (pool w) →
  run (S (S fuel)) now (At_empty true) w tr
  = Some (Raised (ConnectionPoolError "Connection pool is full."), w,
          tr ++ [Wait (ConnectionPool._wait_timeout (pool w))]).
Proof.
  intros Hu Hq Ht.
  rewrite run_step by done. simpl. rewrite (empty_false_used _ Hu).
  rewrite run_step by done. simpl. rewrite get_allowed by auto. rewrite Hq.
  rewrite run_finished by done. by rewrite app_nil_r.
Qed.

(** With a negative timeout the blocking [get] is refused at once. *)
Lemma blocking_fetch_bad_timeout fuel now w tr :
  0 < ConnectionPool._used_conn (pool w) →
  ConnectionPool._wait_timeout (pool w) < 0 →
  run (S (S fuel)) now (At_empty true) w tr
  = Some (Raised (ValueError "'timeout' must be a non-negative number"), w, tr).
Proof.
  intros Hu Ht.
  rewrite run_step by done. simpl. rewrite (empty_false_used _ Hu).
  rewrite run_step by done. simpl. unfold Queue.get.
  destruct (Z.ltb_spec (ConnectionPool._wait_timeout (pool w)) 0); [|lia]. simpl.
  rewrite run_finished by done. by rewrite !app_nil_r.
Qed.

(** Slot reservation followed by the construction of the record. *)
Lemma create_after_inc_used fuel now w tr :
  ConnectionPool._used_conn (pool w) < ConnectionPool._pool_size (pool w) →
  run (S (S fuel)) now At_inc_used w tr
  = let p := ConnectionPool.set_used_conn (ConnectionPool._used_conn (pool w) + 1) (pool w) in
    match ConnectionRecord.new (created w) now (ConnectionPool._uri p)
            (ConnectionPool._recycle p) (ConnectionPool._used_conn p - 1)
            (ConnectionPool._kw p) with
    | Ok conn => Some (Returned (ScopedConnection.new now conn),
                       mk_world p (S (created w)), tr ++ [Create (created w)])
    | Raise e => Some (Raised e, mk_world p (created w), tr)
    end.
Proof.
  intros Hu. rewrite run_step by done. simpl.
  unfold ConnectionPool._inc_used.
  destruct (Z.ltb_spec (ConnectionPool._used_conn (pool w))
              (ConnectionPool._pool_size (pool w))); [|lia].
  rewrite run_step by done. simpl.
  destruct (ConnectionRecord.new _ _ _ _ _ _) as [conn|e].
  - rewrite run_finished by done. by rewrite app_nil_r.
  - rewrite run_finished by done. by rewrite !app_nil_r.
Qed.

Lemma full_true p :
  ConnectionPool._pool_size p ≤ ConnectionPool._used_conn p → ConnectionPool._full p = true.
Proof. intros H. unfold ConnectionPool._full. by apply Z.leb_le. Qed.

Lemma full_false p :
  ConnectionPool._used_conn p < ConnectionPool._pool_size p → ConnectionPool._full p = false.
Proof. intros H. unfold ConnectionPool._full. by apply Z.leb_gt. Qed.

(** A non-blocking fetch at capacity with nothing idle: one poll, then the
    retry in blocking mode. *)
Lemma nonblocking_fetch_at_capacity fuel now w :
  0 < ConnectionPool._pool_size (pool w) →
  ConnectionPool._pool_size (pool w) ≤ ConnectionPool._used_conn (pool w) →
  Queue.items (ConnectionPool._pool (pool w)) = [] →
  0 ≤ ConnectionPool._wait_timeout (pool w) →
  fetch (5 + fuel)%nat now false w
  = Some (Raised (ConnectionPoolError "Connection pool is full."), w,
          [Poll; Wait (ConnectionPool._wait_timeout (pool w))]).
Proof.
  intros Hsize Hfull Hq Ht. unfold fetch. simpl Nat.add.
  rewrite run_step by done. simpl. rewrite empty_false_used by lia.
  rewrite run_step by done. simpl. rewrite get_allowed by auto. rewrite Hq.
  rewrite run_step by done. simpl. rewrite full_true by done.
  rewrite blocking_fetch_nothing_idle by (done || lia). done.
Qed.

Lemma nonblocking_fetch_at_capacity_bad_timeout fuel now w :
  0 < ConnectionPool._pool_size (pool w) →
  ConnectionPool._pool_size (pool w) ≤ ConnectionPool._used_conn (pool w) →
  Queue.items (ConnectionPool._pool (pool w)) = [] →
  ConnectionPool._wait_timeout (pool w) < 0 →
  fetch (5 + fuel)%nat now false w
  = Some (Raised (ValueError "'timeout' must be a non-negative number"), w, [Poll]).
Proof.
  intros Hsize Hfull Hq Ht. unfold fetch. simpl Nat.add.
  rewrite run_step by done. simpl. rewrite empty_false_used by lia.
  rewrite run_step by done. simpl. rewrite get_allowed by auto. rewrite Hq.
  rewrite run_step by done. simpl. rewrite full_true by done.
  rewrite blocking_fetch_bad_timeout by (done || lia). done.
Qed.

(** A non-blocking fetch below capacity with nothing idle and at least one
    record accounted for: one poll, then a new record. *)
Lemma nonblocking_fetch_below_capacity fuel now w :
  0 < ConnectionPool._used_conn (pool w) →
  ConnectionPool._used_conn (pool w) < ConnectionPool._pool_size (pool w) →
  Queue.items (ConnectionPool._pool (pool w)) = [] →
  fetch (5 + fuel)%nat now false w
  = let p := ConnectionPool.set_used_conn (ConnectionPool._used_conn (pool w) + 1) (pool w) in
    match ConnectionRecord.new (created w) now (ConnectionPool._uri p)
            (ConnectionPool._recycle p) (ConnectionPool._used_conn p - 1)
            (ConnectionPool._kw p) with
    | Ok conn => Some (Returned (ScopedConnection.new now conn),
                       mk_world p (S (created w)), [Poll; Create (created w)])
    | Raise e => Some (Raised e, mk_world p (created w), [Poll])
    end.
Proof.
  intros Hpos Hlt Hq. unfold fetch. simpl Nat.add.
  rewrite run_step by done. simpl. rewrite empty_false_used by done.
  rewrite run_step by done. simpl. rewrite get_allowed by auto. rewrite Hq.
  rewrite run_step by done. simpl. rewrite full_false by done.
  by rewrite create_after_inc_used by done.
Qed.

(** Without capacity ([pool_size <= 0]) a fetch on the pristine pool never
    ends: [_empty] sends it to [_inc_used], which refuses and calls
    [fetch(block=True)] again. *)
Lemma fetch_without_capacity_never_ends now w :
  ConnectionPool._pool_size (pool w) ≤ 0 →
  ConnectionPool._used_conn (pool w) = 0 →
  Queue.items (ConnectionPool._pool (pool w)) = [] →
  ∀ fuel block, fetch fuel now block w = None.
Proof.
  intros Hsize Hu Hq.
  assert (∀ fuel, (∀ block tr, run fuel now (At_empty block) w tr = None) ∧
                  (∀ tr, run fuel now At_inc_used w tr = None)) as Hloop.
  { induction fuel as [|fuel [IHe IHi]]; [done|]. split.
    - intros block tr. rewrite run_step by done. simpl.
      rewrite empty_true by (done || lia). apply IHi.
    - intros tr. rewrite run_step by done. simpl.
      unfold ConnectionPool._inc_used.
      destruct (Z.ltb_spec (ConnectionPool._used_conn (pool w))
                  (ConnectionPool._pool_size (pool w))); [lia|].
      destruct w. apply IHe. }
  intros fuel block. apply Hloop.
Qed.

(** [C6], as stated, fails in two ways.  With a negative [wait_timeout]
    the blocking [get] refuses its timeout: at capacity 1 with the one
    record checked out, [fetch(block=True)] ends in [ValueError], not in
    [ConnectionPoolError].  With capacity 0 the counter equals the capacity
    on the pristine pool, and [fetch(block=True)] goes from [_empty] to
    [_inc_used] and back to [fetch(block=True)] without end. *)
Lemma exhausted_fetch_other_endings :
  (let w := mk_world (ConnectionPool.mk Queue.new "tcp://127.0.0.1:19530" 1 (-1) (-1) 1
                        (mk_kwargs None false) ∅) 1 in
   ConnectionPool.count (pool w) = ConnectionPool._pool_size (pool w) ∧
   Queue.items (ConnectionPool._pool (pool w)) = [] ∧
   fetch 5 42 true w
   = Some (Raised (ValueError "'timeout' must be a non-negative number"), w, [])) ∧
  (let w := mk_world (ConnectionPool.new "tcp://127.0.0.1:19530" 0 (-1) 10
                        (mk_kwargs None false)) 0 in
   ConnectionPool.count (pool w) = ConnectionPool._pool_size (pool w) ∧
   Queue.items (ConnectionPool._pool (pool w)) = [] ∧
   ∀ fuel, fetch fuel 42 true w = None).
Proof.
  split; (split; [reflexivity|]); (split; [reflexivity|]); [reflexivity|].
  intros fuel. by apply fetch_without_capacity_never_ends.
Qed.

(** [C6], amended.  On a pool of positive capacity and non-negative
    [wait_timeout] whose counter equals the capacity and whose idle queue
    is empty, a blocking fetch that sees no release waits on the idle queue
    with [wait_timeout], ends in [ConnectionPoolError] and leaves the pool
    and the number of records as they were.  With capacity 2 and no
    release, the first two (non-blocking) fetch calls each construct a
    record, numbered 0 and 1, and return an open handle on it, and the
    third polls, waits and ends in [ConnectionPoolError], the pool still
    counting two records. *)
Theorem fetch_fails_when_exhausted :
  (∀ fuel now w,
     0 < ConnectionPool._pool_size (pool w) →
     0 ≤ ConnectionPool._wait_timeout (pool w) →
     ConnectionPool.count (pool w) = ConnectionPool._pool_size (pool w) →
     Queue.items (ConnectionPool._pool (pool w)) = [] →
     fetch (5 + fuel)%nat now true w
     = Some (Raised (ConnectionPoolError "Connection pool is full."), w,
             [Wait (ConnectionPool._wait_timeout (pool w))])) ∧
  (∀ fuel uri recycle wait_timeout pre_ping now1 now2 now3,
     0 ≤ wait_timeout →
     let p0 := ConnectionPool.new uri 2 recycle wait_timeout (mk_kwargs None pre_ping) in
     let r1 := ConnectionRecord.mk 0 0 uri recycle now1 pre_ping (GrpcHandler uri) in
     let r2 := ConnectionRecord.mk 1 1 uri recycle now2 pre_ping (GrpcHandler uri) in
     let w1 := mk_world (ConnectionPool.set_used_conn 1 p0) 1 in
     let w2 := mk_world (ConnectionPool.set_used_conn 2 p0) 2 in
     fetch (5 + fuel)%nat now1 false (mk_world p0 0)
     = Some (Returned (ScopedConnection.new now1 r1), w1, [Create 0%nat]) ∧
     fetch (5 + fuel)%nat now2 false w1
     = Some (Returned (ScopedConnection.new now2 r2), w2, [Poll; Create 1%nat]) ∧
     fetch (5 + fuel)%nat now3 false w2
     = Some (Raised (ConnectionPoolError "Connection pool is full."), w2,
             [Poll; Wait wait_timeout])).
Proof.
  split.
  - intros fuel now w Hsize Ht Hfull Hq. unfold fetch, ConnectionPool.count in *.
    simpl Nat.add. by rewrite blocking_fetch_nothing_idle by (done || lia).
  - intros fuel uri recycle wait_timeout pre_ping now1 now2 now3 Ht p0 r1 r2 w1 w2.
    subst p0 r1 r2 w1 w2.
    split; [reflexivity|].
    split; [by rewrite nonblocking_fetch_below_capacity|].
    by rewrite nonblocking_fetch_at_capacity.
Qed.

Lemma fetch_fails_when_exhausted_witness :
  let w := mk_world (ConnectionPool.mk Queue.new "tcp://127.0.0.1:19530" 3 (-1) 10 3
                       (mk_kwargs None false) ∅) 3 in
  0 < ConnectionPool._pool_size (pool w) ∧
  0 ≤ ConnectionPool._wait_timeout (pool w) ∧
  ConnectionPool.count (pool w) = ConnectionPool._pool_size (pool w) ∧
  Queue.items (ConnectionPool._pool (pool w)) = [] ∧
  fetch 5 42 true w
  = Some (Raised (ConnectionPoolError "Connection pool is full."), w, [Wait 10]).
Proof.
  intros w. split; [reflexivity|]. split; [by vm_compute|].
  split; [reflexivity|]. split; [reflexivity|].
  apply (proj1 fetch_fails_when_exhausted 0%nat 42 w);
    [reflexivity | by vm_compute | reflexivity | reflexivity].
Defined.

(** [C2], as stated, fails: on a pool of capacity 1 whose only record is
    checked out, [fetch(block=False)] polls the idle queue, finds it empty,
    and then waits on it with the pool's [wait_timeout] of 10. *)
Lemma nonblocking_fetch_reaches_the_wait :
  let w0 := mk_world (ConnectionPool.new "tcp://127.0.0.1:19530" 1 (-1) 10
                        (mk_kwargs None false)) 0 in
  ∃ h w1 tr,
    fetch 5 100 false w0 = Some (Returned h, w1, [Create 0%nat]) ∧
    ConnectionPool._full (pool w1) = true ∧
    Queue.qsize (ConnectionPool._pool (pool w1)) = 0 ∧
    fetch 5 101 false w1
    = Some (Raised (ConnectionPoolError "Connection pool is full."), w1, tr) ∧
    Wait 10 ∈ tr.
Proof.
  eexists _, _, _. split; [reflexivity|]. split; [reflexivity|].
  split; [reflexivity|]. split; [reflexivity|].
  apply list_elem_of_In. simpl. auto.
Qed.

(** Closes a goal [∀ t, Wait t ∉ tr] on an explicit trace of other events. *)
Ltac no_wait :=
  let t := fresh "t" in
  let Ht := fresh "Ht" in
  intros t Ht;
  repeat (apply elem_of_cons in Ht as [Ht|Ht]; [discriminate Ht|]);
  by apply elem_of_nil in Ht.

(** Closes a goal [tr ∈ [tr1; ...; trn]] when [tr] is one of the traces
    listed. *)
Ltac one_of :=
  repeat (first [apply list_elem_of_here | apply list_elem_of_further]).

(** [C2], amended.  Take a [fetch(block=False)] between whose steps no
    other caller acts, on a pool of positive capacity.  When a record is
    idle or the counter is below the capacity, the call finishes after at
    most one poll of the idle queue and without any wait: its accesses to
    the queue and to the records are nothing, one poll, one construction,
    or one poll followed by one construction.  When the counter has
    reached the capacity and the idle queue is empty, the poll fails and
    the call retries in blocking mode, so that the wait with
    [wait_timeout] is reached from a call made with [block=False]: with a
    non-negative [wait_timeout] and no release it waits and ends in
    [ConnectionPoolError]; with a negative one the blocking [get] refuses
    its timeout and the call ends in [ValueError]. *)
Theorem nonblocking_fetch_waits_only_at_capacity fuel now w :
  0 < ConnectionPool._pool_size (pool w) →
  (Queue.items (ConnectionPool._pool (pool w)) ≠ [] ∨
   ConnectionPool._used_conn (pool w) < ConnectionPool._pool_size (pool w) →
   ∃ c w' tr, fetch (5 + fuel)%nat now false w = Some (c, w', tr) ∧
              finished c = true ∧
              (∀ t, Wait t ∉ tr) ∧
              tr ∈ [[]; [Poll]; [Create (created w)]; [Poll; Create (created w)]]) ∧
  (Queue.items (ConnectionPool._pool (pool w)) = [] →
   ConnectionPool._pool_size (pool w) ≤ ConnectionPool._used_conn (pool w) →
   0 ≤ ConnectionPool._wait_timeout (pool w) →
   fetch (5 + fuel)%nat now false w
   = Some (Raised (ConnectionPoolError "Connection pool is full."), w,
           [Poll; Wait (ConnectionPool._wait_timeout (pool w))])) ∧
  (Queue.items (ConnectionPool._pool (pool w)) = [] →
   ConnectionPool._pool_size (pool w) ≤ ConnectionPool._used_conn (pool w) →
   ConnectionPool._wait_timeout (pool w) < 0 →
   fetch (5 + fuel)%nat now false w
   = Some (Raised (ValueError "'timeout' must be a non-negative number"), w, [Poll])).
Proof.
  intros Hsize. split; [|split; intros;
    [by apply nonblocking_fetch_at_capacity
    |by apply nonblocking_fetch_at_capacity_bad_timeout]].
  intros Hcase. unfold fetch. simpl Nat.add.
  destruct (Queue.items (ConnectionPool._pool (pool w))) as [|conn rest] eqn:Hq.
  - destruct Hcase as [|Hlt]; [done|].
    rewrite run_step by done. simpl.
    destruct (ConnectionPool._empty (pool w)) eqn:He.
    + rewrite create_after_inc_used by done. simpl.
      destruct (ConnectionRecord.new _ _ _ _ _ _); eexists _, _, _;
        (split; [reflexivity|]); (split; [done|]); (split; [no_wait | one_of]).
    + rewrite run_step by done. simpl. rewrite get_allowed by auto. rewrite Hq.
      rewrite run_step by done. simpl. rewrite full_false by done.
      rewrite create_after_inc_used by done. simpl.
      destruct (ConnectionRecord.new _ _ _ _ _ _); eexists _, _, _;
        (split; [reflexivity|]); (split; [done|]); (split; [no_wait | one_of]).
  - rewrite run_step by done. simpl. rewrite (empty_false_idle _ _ _ Hq).
    rewrite run_step by done. simpl. rewrite get_allowed by auto. rewrite Hq.
    rewrite run_finished by done.
    eexists _, _, _. split; [reflexivity|]. split; [done|].
    split; [no_wait | one_of].
Qed.

Lemma nonblocking_fetch_waits_only_at_capacity_witness :
  let w := mk_world (ConnectionPool.mk Queue.new "tcp://127.0.0.1:19530" 3 (-1) 10 3
                       (mk_kwargs None false) ∅) 3 in
  0 < ConnectionPool._pool_size (pool w) ∧
  Queue.items (ConnectionPool._pool (pool w)) = [] ∧
  ConnectionPool._pool_size (pool w) ≤ ConnectionPool._used_conn (pool w) ∧
  0 ≤ ConnectionPool._wait_timeout (pool w) ∧
  fetch 5 42 false w
  = Some (Raised (ConnectionPoolError "Connection pool is full."), w, [Poll; Wait 10]).
Proof.
  intros w. split; [reflexivity|]. split; [reflexivity|].
  split; [by vm_compute|]. split; [by vm_compute|].
  apply (proj1 (proj2 (nonblocking_fetch_waits_only_at_capacity 0%nat 42 w eq_refl)));
    [reflexivity | by vm_compute | by vm_compute].
Defined.

(** ** Scoped handles *)

Lemma close_closed now p :
  ScopedConnection.close now p (ScopedConnection.mk None None true)
  = (p, ScopedConnection.mk None None true).
Proof. reflexivity. Qed.

Lemma close_eta now p h :
  ScopedConnection.close now p h
  = ((ScopedConnection.close now p h).1, ScopedConnection.mk None None true).
Proof. rewrite <- (close_handle now p h). by destruct (ScopedConnection.close _ _ _). Qed.

Lemma closes_closed nows p :
  closes nows (p, ScopedConnection.mk None None true)
  = (p, ScopedConnection.mk None None true).
Proof.
  induction nows as [|now nows IH]; [done|]. exact IH.
Qed.

Lemma record_duration_lookup k d p :
  ConnectionPool.durations (ConnectionPool.record_duration k d p) !! k
  = Some ((let l := default [] (ConnectionPool.durations p !! k) in
           if 10000 <=? Z.of_nat (length l) then tail l else l) ++ [d]).
Proof. unfold ConnectionPool.record_duration. simpl. by rewrite lookup_insert_eq. Qed.

Lemma record_duration_lookup_ne k k' d p :
  k ≠ k' →
  ConnectionPool.durations (ConnectionPool.record_duration k d p) !! k'
  = ConnectionPool.durations p !! k'.
Proof.
  intros Hne. unfold ConnectionPool.record_duration. simpl.
  by rewrite lookup_insert_ne.
Qed.

(** [C3]  The code departs from the claim.  Closing a handle that holds the
    record [conn] stops the handle's duration and records it, but under
    the key [None]: [close] clears [_connection] before it passes
    [self._connection] to [record_duration].  The history kept under the
    identity of [conn] is left as it was. *)
Theorem close_records_under_none now p h conn d :
  ScopedConnection._connection h = Some conn →
  ScopedConnection._duration h = Some d →
  let p' := (ScopedConnection.close now p h).1 in
  ConnectionPool.durations p' !! Some (ConnectionRecord.ident conn)
  = ConnectionPool.durations p !! Some (ConnectionRecord.ident conn) ∧
  ∃ l, ConnectionPool.durations p' !! None = Some (l ++ [(Duration.stop now d).2]).
Proof.
  intros Hc Hd p'.
  assert (p' = ConnectionPool.record_duration None (Duration.stop now d).2
                 (ConnectionPool.release conn p)) as ->.
  { subst p'. unfold ScopedConnection.close. by rewrite Hc, Hd. }
  split.
  - rewrite record_duration_lookup_ne by done. by rewrite release_durations.
  - rewrite record_duration_lookup. eauto.
Qed.

Lemma close_records_under_none_witness :
  let conn := ConnectionRecord.mk 0 0 "tcp://127.0.0.1:19530" (-1) 5 false
                (GrpcHandler "tcp://127.0.0.1:19530") in
  let p := ConnectionPool.set_used_conn 1
             (ConnectionPool.new "tcp://127.0.0.1:19530" 1 (-1) 10 (mk_kwargs None false)) in
  let h := ScopedConnection.new 5 conn in
  let p' := (ScopedConnection.close 9 p h).1 in
  ScopedConnection._connection h = Some conn ∧
  ScopedConnection._duration h = Some (Duration.new 5) ∧
  ConnectionPool.durations p' !! Some 0%nat = ConnectionPool.durations p !! Some 0%nat ∧
  ∃ l, ConnectionPool.durations p' !! None = Some (l ++ [Duration.mk 5 (Some 9)]).
Proof.
  intros conn p h p'. split; [reflexivity|]. split; [reflexivity|].
  apply (close_records_under_none 9 p h conn (Duration.new 5)); reflexivity.
Defined.

(** [C4]  Closing is idempotent.  The first close of a handle that holds
    the record [conn] appends [conn] to the idle queue of the pool, once;
    any number of further closes of the same handle leave the pool (idle
    queue and recorded durations included) and the handle exactly as the
    first close left them. *)
Theorem close_is_idempotent now nows p h conn :
  ScopedConnection._connection h = Some conn →
  Queue.maxsize (ConnectionPool._pool p) = 0 →
  let ph := ScopedConnection.close now p h in
  Queue.items (ConnectionPool._pool ph.1)
  = Queue.items (ConnectionPool._pool p) ++ [conn] ∧
  closes nows ph = ph.
Proof.
  intros Hc Hm ph. subst ph. split.
  - rewrite close_pool, Hc. by rewrite release_unbounded.
  - rewrite close_eta. apply closes_closed.
Qed.

Lemma close_is_idempotent_witness :
  let conn := ConnectionRecord.mk 0 0 "tcp://127.0.0.1:19530" (-1) 5 false
                (GrpcHandler "tcp://127.0.0.1:19530") in
  let p := ConnectionPool.set_used_conn 1
             (ConnectionPool.new "tcp://127.0.0.1:19530" 1 (-1) 10 (mk_kwargs None false)) in
  let h := ScopedConnection.new 5 conn in
  let ph := ScopedConnection.close 9 p h in
  ScopedConnection._connection h = Some conn ∧
  Queue.maxsize (ConnectionPool._pool p) = 0 ∧
  Queue.items (ConnectionPool._pool ph.1) = Queue.items (ConnectionPool._pool p) ++ [conn] ∧
  closes [11; 12; 20] ph = ph.
Proof.
  intros conn p h ph. split; [reflexivity|]. split; [reflexivity|].
  apply (close_is_idempotent 9 [11; 12; 20] p h conn); reflexivity.
Defined.

(** [C5]  After [close], whatever the handle was before, [connection()],
    [client()] and every attribute forwarded through [__getattr__] raise
    [ValueError("Connection has been closed.")]; neither the liveness probe
    nor the transport is reached. *)
Theorem use_after_close_is_rejected
    (connect : Handler → string → Z → result unit) (Attr : Type)
    (handler_getattr : Handler → string → result Attr) now p h :
  let h' := (ScopedConnection.close now p h).2 in
  ScopedConnection._closed h' = true ∧
  ScopedConnection.connection h' = Raise (ValueError "Connection has been closed.") ∧
  ScopedConnection.client connect h' = Raise (ValueError "Connection has been closed.") ∧
  ∀ item, ScopedConnection.getattr connect Attr handler_getattr h' item
          = Raise (ValueError "Connection has been closed.").
Proof.
  intros h'. subst h'. rewrite close_handle. by repeat split.
Qed.

(** ** Usage statistics *)

Lemma tail_as_drop {A} (l : list A) : tail l = drop 1 l.
Proof. by destruct l. Qed.

Lemma record_duration_capped k d p : capped p → capped (ConnectionPool.record_duration k d p).
Proof.
  intros Hp k' l' Hl'. destruct (decide (k = k')) as [<-|Hne].
  - rewrite record_duration_lookup in Hl'. simplify_eq/=.
    assert (Z.of_nat (length (default [] (ConnectionPool.durations p !! k))) ≤ 10000) as Hlen.
    { destruct (ConnectionPool.durations p !! k) as [l|] eqn:Hl; simpl; [by eapply Hp | lia]. }
    rewrite length_app. simpl.
    destruct (Z.leb_spec 10000
                (Z.of_nat (length (default [] (ConnectionPool.durations p !! k))))).
    + rewrite tail_as_drop, length_drop. lia.
    + lia.
  - rewrite record_duration_lookup_ne in Hl' by done. by eapply Hp.
Qed.

Lemma record_each_capped kds p : capped p → capped (record_each kds p).
Proof.
  intros Hp. induction kds as [|[k d] kds IH] using rev_ind; [done|].
  unfold record_each in *. rewrite foldl_app. simpl.
  by apply record_duration_capped.
Qed.

(** Recording a sequence under one key of a pool that has no history for
    it keeps the last 10,000 durations of the sequence, in order. *)
Lemma record_all_history k ds p :
  ConnectionPool.durations p !! k = None →
  default [] (ConnectionPool.durations (record_all k ds p) !! k)
  = drop (Z.to_nat (Z.of_nat (length ds) - 10000)) ds.
Proof.
  intros Hk. induction ds as [|d ds IH] using rev_ind.
  { simpl. by rewrite Hk. }
  unfold record_all in *. rewrite foldl_app. cbn [foldl].
  rewrite record_duration_lookup. cbv zeta. rewrite IH. clear IH.
  rewrite length_drop, length_app. simpl.
  set (n := length ds).
  destruct (Z.leb_spec 10000 (Z.of_nat (n - Z.to_nat (Z.of_nat n - 10000)))) as [Hge|Hlt].
  - rewrite tail_as_drop, drop_drop.
    replace (Z.to_nat (Z.of_nat (n + 1) - 10000))
      with (Z.to_nat (Z.of_nat n - 10000) + 1)%nat by lia.
    rewrite drop_app_le; [done | fold n; lia].
  - replace (Z.to_nat (Z.of_nat (n + 1) - 10000)) with 0%nat by lia.
    replace (Z.to_nat (Z.of_nat n - 10000)) with 0%nat by lia.
    by rewrite !drop_0.
Qed.

(** Calls of [record_duration] that run one after the other, none
    interrupted, keep every history at 10,000 entries or fewer on a freshly
    built pool: a recording made on a history of 10,000 entries drops the
    oldest entry and appends the new one, and of 10,001 durations recorded
    under one identity the first is gone and the others remain in order. *)
Lemma record_duration_keeps_at_most_10000
    uri pool_size recycle wait_timeout kw (kds : list (option nat * Duration.t)) :
  let p0 := ConnectionPool.new uri pool_size recycle wait_timeout kw in
  let p := record_each kds p0 in
  (∀ k l, ConnectionPool.durations p !! k = Some l → Z.of_nat (length l) ≤ 10000) ∧
  (∀ k d l, ConnectionPool.durations p !! k = Some l →
            Z.of_nat (length l) = 10000 →
            ConnectionPool.durations (ConnectionPool.record_duration k d p) !! k
            = Some (tail l ++ [d])) ∧
  (∀ k ds, Z.of_nat (length ds) = 10001 →
           ConnectionPool.durations (record_all k ds p0) !! k = Some (tail ds)).
Proof.
  intros p0 p. split; [|split].
  - apply record_each_capped. intros k l Hl. subst p0. simpl in Hl.
    by rewrite lookup_empty in Hl.
  - intros k d l Hl Hlen. rewrite record_duration_lookup, Hl. simpl.
    by destruct (Z.leb_spec 10000 (Z.of_nat (length l))); [|lia].
  - intros k ds Hlen.
    pose proof (record_all_history k ds p0 (lookup_empty _)) as Hh.
    rewrite Hlen in Hh. change (Z.to_nat (10001 - 10000)) with 1%nat in Hh.
    rewrite <- tail_as_drop in Hh.
    destruct (ConnectionPool.durations (record_all k ds p0) !! k) as [l|];
      simpl in Hh; [by subst|].
    destruct ds as [|d1 [|d2 ds]]; simpl in *; (lia || done).
Qed.

Lemma set_durations_twice m1 m2 p :
  ConnectionPool.set_durations m2 (ConnectionPool.set_durations m1 p)
  = ConnectionPool.set_durations m2 p.
Proof. done. Qed.

Lemma durations_set m p :
  ConnectionPool.durations (ConnectionPool.set_durations m p) = m.
Proof. done. Qed.

Lemma set_durations_same p :
  ConnectionPool.set_durations (ConnectionPool.durations p) p = p.
Proof. by destruct p. Qed.

Lemma rec_exec_first p r rs :
  Recording.exec (p, r :: rs) 0
  = ((Recording.step r p).2, (Recording.step r p).1 :: rs).
Proof. unfold Recording.exec. simpl. by destruct (Recording.step r p). Qed.

Lemma rec_exec_second p r0 r rs :
  Recording.exec (p, r0 :: r :: rs) 1
  = ((Recording.step r p).2, r0 :: (Recording.step r p).1 :: rs).
Proof. unfold Recording.exec. simpl. by destruct (Recording.step r p). Qed.

Lemma rec_step_testing k d p :
  Recording.step (Recording.Testing k d) p
  = (if 10000 <=? Z.of_nat (length (default [] (ConnectionPool.durations p !! k)))
     then Recording.Popping k d else Recording.Appending k d,
     ConnectionPool.set_durations
       (<[k := default [] (ConnectionPool.durations p !! k)]> (ConnectionPool.durations p))
       p).
Proof. unfold Recording.step, Recording.read. by destruct (10000 <=? _). Qed.

Lemma rec_step_popping k d p x rest :
  default [] (ConnectionPool.durations p !! k) = x :: rest →
  Recording.step (Recording.Popping k d) p
  = (Recording.Appending k d,
     ConnectionPool.set_durations (<[k := rest]> (ConnectionPool.durations p)) p).
Proof.
  intros Hl. unfold Recording.step, Recording.read. rewrite Hl.
  by rewrite durations_set, set_durations_twice, insert_insert_eq.
Qed.

Lemma rec_step_appending k d p :
  Recording.step (Recording.Appending k d) p
  = (Recording.Recorded,
     ConnectionPool.set_durations
       (<[k := default [] (ConnectionPool.durations p !! k) ++ [d]]>
          (ConnectionPool.durations p)) p).
Proof.
  unfold Recording.step, Recording.read.
  by rewrite durations_set, set_durations_twice, insert_insert_eq.
Qed.

(** A call of [record_duration] that no other caller interrupts does what
    [ConnectionPool.record_duration] says. *)
Lemma recording_alone k d p :
  Recording.execs (p, [Recording.Testing k d]) [0; 0; 0]%nat
  = (ConnectionPool.record_duration k d p, [Recording.Recorded]).
Proof.
  unfold Recording.execs, ConnectionPool.record_duration. cbn [foldl].
  rewrite rec_exec_first, rec_step_testing. cbn [fst snd].
  set (l := default [] (ConnectionPool.durations p !! k)).
  destruct (10000 <=? Z.of_nat (length l)) eqn:Hlen.
  - destruct l as [|x rest] eqn:Hl; [done|].
    rewrite rec_exec_first, (rec_step_popping _ _ _ x rest); cycle 1.
    { by rewrite durations_set, lookup_insert_eq. }
    cbn [fst snd]. rewrite rec_exec_first, rec_step_appending. cbn [fst snd].
    rewrite !durations_set, !set_durations_twice, lookup_insert_eq.
    by rewrite !insert_insert_eq.
  - rewrite rec_exec_first, rec_step_appending. cbn [fst snd].
    rewrite rec_exec_first. cbn [Recording.step fst snd].
    rewrite !durations_set, !set_durations_twice, lookup_insert_eq.
    by rewrite !insert_insert_eq.
Qed.

(** [C7]  The code departs from the claim.  [record_duration] tests the
    length of the history, pops and appends without holding a lock, so two
    calls may interleave.  On a history of 9,999 entries two calls that
    both make their test before either appends both find room, both
    append, and leave 10,001 entries: the first entry is still there and
    the cap is passed. *)
Theorem interleaved_recordings_exceed_10000 p k l d1 d2 :
  ConnectionPool.durations p !! k = Some l →
  Z.of_nat (length l) = 9999 →
  let st := Recording.execs (p, [Recording.Testing k d1; Recording.Testing k d2])
              [0; 1; 0; 1]%nat in
  st.2 = [Recording.Recorded; Recording.Recorded] ∧
  ConnectionPool.durations st.1 !! k = Some (l ++ [d1; d2]) ∧
  Z.of_nat (length (l ++ [d1; d2])) = 10001.
Proof.
  intros Hl Hlen st. subst st. unfold Recording.execs. cbn [foldl].
  assert (∀ d, Recording.step (Recording.Testing k d) p = (Recording.Appending k d, p))
    as Htest.
  { intros d. rewrite rec_step_testing, Hl. cbn [from_option id].
    destruct (Z.leb_spec 10000 (Z.of_nat (length l))); [lia|].
    by rewrite insert_id, set_durations_same. }
  rewrite rec_exec_first, Htest. cbn [fst snd].
  rewrite rec_exec_second, Htest. cbn [fst snd].
  rewrite rec_exec_first, rec_step_appending, Hl. cbn [fst snd from_option id].
  rewrite rec_exec_second, rec_step_appending. cbn [fst snd].
  rewrite !durations_set, lookup_insert_eq. cbn [from_option id].
  split; [done|]. split.
  - rewrite lookup_insert_eq. cbn [from_option id]. by rewrite <- app_assoc.
  - rewrite length_app. simpl. lia.
Qed.

Lemma interleaved_recordings_exceed_10000_witness :
  let l := (fun i => Duration.mk i (Some (i + 1))) <$> seqZ 1 9999 in
  let p := ConnectionPool.set_durations {[None := l]}
             (ConnectionPool.new "tcp://127.0.0.1:19530" 10 (-1) 10 (mk_kwargs None false)) in
  let d1 := Duration.mk 20000 (Some 20005) in
  let d2 := Duration.mk 20001 (Some 20007) in
  let st := Recording.execs (p, [Recording.Testing None d1; Recording.Testing None d2])
              [0; 1; 0; 1]%nat in
  ConnectionPool.durations p !! None = Some l ∧
  Z.of_nat (length l) = 9999 ∧
  ConnectionPool.durations st.1 !! None = Some (l ++ [d1; d2]) ∧
  Z.of_nat (length (l ++ [d1; d2])) = 10001.
Proof.
  intros l p d1 d2 st.
  assert (ConnectionPool.durations p !! None = Some l) as Hl by apply lookup_singleton_eq.
  assert (Z.of_nat (length l) = 9999) as Hlen by (by vm_compute).
  split; [exact Hl|]. split; [exact Hlen|].
  apply (interleaved_recordings_exceed_10000 p None l d1 d2 Hl Hlen).
Defined.

Lemma value_stopped d : stopped d → Duration.value d = Some (elapsed d).
Proof.
  unfold stopped, Duration.value, elapsed.
  destruct (Duration.end_ts d) as [e|]; [|done]. by intros ->.
Qed.

Lemma py_sum_stopped acc ds :
  Forall stopped ds →
  ConnectionPool.py_sum acc (Duration.value <$> ds) = Ok (acc + total_elapsed ds).
Proof.
  intros Hds. revert acc. induction Hds as [|d ds Hd _ IH]; intros acc; simpl.
  - f_equal. lia.
  - rewrite (value_stopped d Hd), IH. f_equal. lia.
Qed.

Lemma stats_loop_stopped its conns take :
  Forall (fun kv => Forall stopped kv.2) its →
  ConnectionPool.stats_loop its conns take
  = Ok (foldl (fun m kv => <[kv.1 := stat_of kv.2]> m) conns its,
        take ++ ((fun kv => total_elapsed kv.2) <$> its)).
Proof.
  intros Hits. revert conns take.
  induction Hits as [|[k ds] its Hds _ IH]; intros conns take; simpl.
  - by rewrite app_nil_r.
  - rewrite py_sum_stopped by done. simpl. rewrite IH.
    by rewrite <- app_assoc.
Qed.

Lemma lookup_foldl_insert_stat (its : list (option nat * list Duration.t))
    (conns : gmap (option nat) ConnectionPool.conn_stat) k :
  NoDup its.*1 →
  foldl (fun m kv => <[kv.1 := stat_of kv.2]> m) conns its !! k
  = match (list_to_map its : gmap (option nat) (list Duration.t)) !! k with
    | Some ds => Some (stat_of ds)
    | None => conns !! k
    end.
Proof.
  intros Hnd. revert conns.
  induction its as [|[k0 ds0] its IH]; intros conns; simpl.
  - by rewrite lookup_empty.
  - apply NoDup_cons in Hnd as [Hk0 Hnd]. rewrite IH by done.
    destruct (decide (k0 = k)) as [->|Hne].
    + rewrite lookup_insert_eq.
      by rewrite (not_elem_of_list_to_map_1 _ _ Hk0), lookup_insert_eq.
    + by rewrite !lookup_insert_ne.
Qed.

Lemma foldl_max_spec x l :
  (∀ y, y ∈ x :: l → y ≤ foldl Z.max x l) ∧ foldl Z.max x l ∈ x :: l.
Proof.
  revert x. induction l as [|a l IH]; intros x; simpl.
  - split; [|by left]. intros y Hy. apply list_elem_of_singleton in Hy. lia.
  - destruct (IH (Z.max x a)) as [Hub Hin]. split.
    + intros y Hy. apply elem_of_cons in Hy as [->|Hy].
      * specialize (Hub (Z.max x a) (list_elem_of_here _ _)). lia.
      * apply elem_of_cons in Hy as [->|Hy].
        -- specialize (Hub (Z.max x a) (list_elem_of_here _ _)). lia.
        -- apply Hub. by right.
    + apply elem_of_cons in Hin as [Heq|Hin].
      * rewrite Heq. destruct (Z.max_spec x a) as [[_ ->]|[_ ->]];
          [right; left | left].
      * right. by right.
Qed.

(** Durations reach the pool through [close] only, which stops them. *)
Lemma stop_stopped now d : now ≠ 0 → stopped (Duration.stop now d).2.
Proof.
  intros Hnow. unfold Duration.stop, stopped.
  destruct (truthy (Duration.end_ts d)) eqn:Ht; simpl; [done|].
  by destruct (Z.eqb_spec now 0).
Qed.

Lemma record_duration_stopped k d p :
  stopped d → all_stopped p → all_stopped (ConnectionPool.record_duration k d p).
Proof.
  intros Hd Hp k' ds Hds. destruct (decide (k = k')) as [<-|Hne].
  - rewrite record_duration_lookup in Hds. simplify_eq/=.
    assert (Forall stopped (default [] (ConnectionPool.durations p !! k))) as Hl.
    { destruct (ConnectionPool.durations p !! k) eqn:Hk; simpl; [by eapply Hp | done]. }
    apply Forall_app. split; [|by apply Forall_singleton].
    destruct (10000 <=? _); [|done].
    rewrite tail_as_drop. by apply Forall_drop.
  - rewrite record_duration_lookup_ne in Hds by done. by eapply Hp.
Qed.

Lemma close_stopped now p h :
  now ≠ 0 → all_stopped p → all_stopped (ScopedConnection.close now p h).1.
Proof.
  intros Hnow Hp.
  assert (∀ conn, all_stopped (ConnectionPool.release conn p)) as Hrel.
  { intros conn k ds. rewrite release_durations. apply Hp. }
  unfold ScopedConnection.close.
  destruct (ScopedConnection._connection h), (ScopedConnection._duration h);
    cbn [fst snd ScopedConnection._duration ScopedConnection._connection];
    try apply record_duration_stopped; auto using stop_stopped.
Qed.

Lemma step_durations now c w c' w' evs :
  step now c w = (c', w', evs) →
  ConnectionPool.durations (pool w') = ConnectionPool.durations (pool w).
Proof.
  intros Hs. destruct c; simpl in Hs.
  - destruct (ConnectionPool._empty _); by simplify_eq/=.
  - destruct (Queue.get _ _ _) as [[conn q]|[]]; try destruct block; by simplify_eq/=.
  - destruct (ConnectionPool._full _); by simplify_eq/=.
  - unfold ConnectionPool._inc_used in Hs. destruct (_ <? _); by simplify_eq/=.
  - destruct (ConnectionRecord.new _ _ _ _ _ _); by simplify_eq/=.
  - by simplify_eq/=.
  - by simplify_eq/=.
Qed.

Lemma exec_stopped s l :
  clock_set l = true → all_stopped (pool (shared s)) →
  all_stopped (pool (shared (exec s l))).
Proof.
  intros Hl Hs. destruct l as [b|i now|i now|conn]; simpl; try done.
  - destruct (calls s !! i) as [c|]; [|done].
    destruct (step now c (shared s)) as [[c' w'] evs] eqn:Hst.
    apply step_durations in Hst. simpl. intros k ds. rewrite Hst. apply Hs.
  - destruct (calls s !! i) as [[| | | | |h|]|]; try done.
    simpl in Hl. apply negb_true_iff in Hl. apply Z.eqb_neq in Hl.
    pose proof (close_stopped now (pool (shared s)) h Hl Hs) as Hc.
    by destruct (ScopedConnection.close _ _ _).
  - intros k ds. rewrite release_durations. apply Hs.
Qed.

Lemma execs_stopped s sched :
  forallb clock_set sched = true → all_stopped (pool (shared s)) →
  all_stopped (pool (shared (execs s sched))).
Proof.
  intros Hsc Hs. induction sched as [|l sched IH] using rev_ind; [done|].
  rewrite forallb_app in Hsc. apply andb_prop in Hsc as [H1 H2].
  simpl in H2. rewrite andb_true_r in H2.
  rewrite execs_snoc. apply exec_stopped; auto.
Qed.

(** [C8]  [stats()] raises [ValueError] (the maximum of an empty list) when
    the pool has recorded no duration.  When it has recorded some, each of
    them stopped, [stats()] returns: for every record identity with a
    history, and for no other, the sum of the elapsed times of the history
    and the number of its entries; as [max-time], the largest of these
    sums; as [num], the number of identities with a history. *)
Theorem stats_fails_empty_else_reports p :
  (ConnectionPool.durations p = ∅ →
   ConnectionPool.stats p = Raise (ValueError "max() arg is an empty sequence")) ∧
  (ConnectionPool.durations p ≠ ∅ →
   (∀ k ds, ConnectionPool.durations p !! k = Some ds → Forall stopped ds) →
   ∃ out,
     ConnectionPool.stats p = Ok out ∧
     (∀ k, ConnectionPool.connections out !! k
           = (fun ds => ConnectionPool.mk_stat (total_elapsed ds) (length ds))
               <$> ConnectionPool.durations p !! k) ∧
     (∀ k ds, ConnectionPool.durations p !! k = Some ds →
              total_elapsed ds ≤ ConnectionPool.max_time out) ∧
     (∃ k ds, ConnectionPool.durations p !! k = Some ds ∧
              total_elapsed ds = ConnectionPool.max_time out) ∧
     ConnectionPool.num out = size (ConnectionPool.durations p)).
Proof.
  split.
  - intros He. unfold ConnectionPool.stats. rewrite He, map_to_list_empty. done.
  - intros Hne Hst. unfold ConnectionPool.stats.
    set (m := ConnectionPool.durations p) in *.
    rewrite stats_loop_stopped; cycle 1.
    { apply Forall_forall. intros [k ds] Hin.
      apply elem_of_map_to_list in Hin. by eapply Hst. }
    cbn [mbind result_bind]. rewrite app_nil_l.
    destruct (map_to_list m) as [|[k0 ds0] its] eqn:Hits.
    { by apply map_to_list_empty_iff in Hits. }
    cbn [fmap list_fmap ConnectionPool.py_max mbind result_bind].
    rewrite <- Hits.
    eexists. split; [reflexivity|]. cbn [ConnectionPool.connections
      ConnectionPool.max_time ConnectionPool.num].
    destruct (foldl_max_spec (total_elapsed ds0)
                ((fun kv => total_elapsed kv.2) <$> its)) as [Hub Hin].
    assert (∀ y, y ∈ total_elapsed ds0 :: ((fun kv => total_elapsed kv.2) <$> its)
                 ↔ ∃ k ds, m !! k = Some ds ∧ y = total_elapsed ds) as Hmem.
    { intros y.
      change (total_elapsed ds0 :: ((fun kv => total_elapsed kv.2) <$> its))
        with ((fun kv : option nat * list Duration.t => total_elapsed kv.2)
                <$> ((k0, ds0) :: its)).
      rewrite <- Hits, list_elem_of_fmap. split.
      - intros ([k ds] & -> & Hin'). apply elem_of_map_to_list in Hin'. eauto.
      - intros (k & ds & Hk & ->). exists (k, ds). split; [done|].
        by apply elem_of_map_to_list. }
    repeat split.
    + intros k. rewrite lookup_foldl_insert_stat by apply NoDup_fst_map_to_list.
      rewrite list_to_map_to_list, lookup_empty. by destruct (m !! k).
    + intros k ds Hk. apply Hub, Hmem. eauto.
    + apply Hmem in Hin as (k & ds & Hk & Heq). eauto.
Qed.

Lemma stats_fails_empty_else_reports_witness :
  let p0 := ConnectionPool.new "tcp://127.0.0.1:19530" 1 (-1) 10 (mk_kwargs None false) in
  let sched := [Fetch false; Step 0 5; Step 0 5; Step 0 5; Close 0 9;
                Fetch false; Step 1 11; Step 1 11; Close 1 18] in
  let p := pool (shared (execs (init p0) sched)) in
  ConnectionPool.durations p0 = ∅ ∧
  ConnectionPool.stats p0 = Raise (ValueError "max() arg is an empty sequence") ∧
  ConnectionPool.durations p ≠ ∅ ∧
  (∀ k ds, ConnectionPool.durations p !! k = Some ds → Forall stopped ds) ∧
  ∃ out, ConnectionPool.stats p = Ok out ∧
         ConnectionPool.connections out !! None = Some (ConnectionPool.mk_stat 11 2) ∧
         ConnectionPool.max_time out = 11 ∧
         ConnectionPool.num out = 1%nat.
Proof.
  intros p0 sched p.
  assert (ConnectionPool.durations p ≠ ∅) as Hne.
  { intros He. apply (f_equal (fun m => m !! None)) in He.
    vm_compute in He. discriminate He. }
  assert (∀ k ds, ConnectionPool.durations p !! k = Some ds → Forall stopped ds) as Hst.
  { apply execs_stopped; [reflexivity|].
    intros k ds Hk. simpl in Hk. by rewrite lookup_empty in Hk. }
  split; [reflexivity|].
  split; [apply (proj1 (stats_fails_empty_else_reports p0)); reflexivity|].
  split; [exact Hne|]. split; [exact Hst|].
  destruct (proj2 (stats_fails_empty_else_reports p) Hne Hst)
    as (out & Hout & Hconns & Hub & Hmax & Hnum).
  exists out. split; [exact Hout|].
  assert (ConnectionPool.stats p
          = Ok (ConnectionPool.mk_out {[None := ConnectionPool.mk_stat 11 2]} 11 1)) as Hv.
  { by vm_compute. }
  rewrite Hout in Hv. injection Hv as ->. by vm_compute.
Defined.


(** * Further properties of the code *)

(** ** Duration and the counter *)

(** [X1]  A duration that has not been stopped is stopped by [stop] at any
    non-zero clock reading: [stop] answers [True] and [value] becomes the
    time elapsed since the start.  From then on [stop] answers [False] and
    changes nothing: the end is set once. *)
Theorem duration_stops_once d t1 t2 :
  truthy (Duration.end_ts d) = false →
  t1 ≠ 0 →
  let d1 := (Duration.stop t1 d).2 in
  (Duration.stop t1 d).1 = true ∧
  Duration.value d1 = Some (t1 - Duration.start_ts d) ∧
  Duration.stop t2 d1 = (false, d1).
Proof.
  intros Hd Ht1. unfold Duration.stop, Duration.value. rewrite Hd. simpl.
  destruct (Z.eqb_spec t1 0); [done|]. done.
Qed.

Lemma duration_stops_once_witness :
  truthy (Duration.end_ts (Duration.new 100)) = false ∧ 130 ≠ 0 ∧
  (Duration.stop 130 (Duration.new 100)).1 = true ∧
  Duration.value (Duration.stop 130 (Duration.new 100)).2 = Some (130 - 100) ∧
  Duration.stop 150 (Duration.stop 130 (Duration.new 100)).2
  = (false, (Duration.stop 130 (Duration.new 100)).2).
Proof.
  split; [reflexivity|]. split; [done|].
  apply (duration_stops_once (Duration.new 100) 130 150); done.
Defined.

Lemma set_used_conn_back n p :
  ConnectionPool.set_used_conn (ConnectionPool._used_conn p)
    (ConnectionPool.set_used_conn n p) = p.
Proof. by destruct p. Qed.

(** [X2]  On a pool whose counter is not negative, [_inc_used] succeeds
    exactly when [_full()] is false; [_dec_used] undoes a successful
    [_inc_used]; [_dec_used] refuses exactly at zero and never takes the
    counter below zero. *)
Theorem inc_used_undone_by_dec_used p :
  0 ≤ ConnectionPool._used_conn p →
  (ConnectionPool._inc_used p).1 = negb (ConnectionPool._full p) ∧
  ((ConnectionPool._inc_used p).1 = true →
   ConnectionPool._dec_used (ConnectionPool._inc_used p).2 = (true, p)) ∧
  0 ≤ ConnectionPool._used_conn (ConnectionPool._dec_used p).2 ∧
  ((ConnectionPool._dec_used p).1 = false ↔ ConnectionPool._used_conn p = 0).
Proof.
  intros H0. unfold ConnectionPool._inc_used, ConnectionPool._dec_used,
    ConnectionPool._full.
  destruct (Z.ltb_spec (ConnectionPool._used_conn p) (ConnectionPool._pool_size p));
    destruct (Z.leb_spec (ConnectionPool._pool_size p) (ConnectionPool._used_conn p));
    try lia; simpl.
  - destruct (Z.eqb_spec (ConnectionPool._used_conn p + 1) 0); [lia|].
    destruct (Z.eqb_spec (ConnectionPool._used_conn p) 0); simpl;
      repeat split; try done; try lia; intros _; f_equal;
      replace (ConnectionPool._used_conn p + 1 - 1)
        with (ConnectionPool._used_conn p) by lia;
      apply set_used_conn_back.
  - destruct (Z.eqb_spec (ConnectionPool._used_conn p) 0); simpl;
      repeat split; try done; lia.
Qed.

Lemma inc_used_undone_by_dec_used_witness :
  let p := ConnectionPool.set_used_conn 3
             (ConnectionPool.new "tcp://127.0.0.1:19530" 10 (-1) 10 (mk_kwargs None false)) in
  0 ≤ ConnectionPool._used_conn p ∧
  (ConnectionPool._inc_used p).1 = true ∧
  ConnectionPool._dec_used (ConnectionPool._inc_used p).2 = (true, p).
Proof.
  intros p. split; [by vm_compute|]. split; [reflexivity|].
  apply (inc_used_undone_by_dec_used p); [by vm_compute | reflexivity].
Defined.

(** ** More on a call of [fetch] on its own *)

Lemma release_wait_timeout conn p :
  ConnectionPool._wait_timeout (ConnectionPool.release conn p)
  = ConnectionPool._wait_timeout p.
Proof. unfold ConnectionPool.release. by destruct (Queue.put_nowait _ _). Qed.

Lemma close_wait_timeout now p h :
  ConnectionPool._wait_timeout (ScopedConnection.close now p h).1
  = ConnectionPool._wait_timeout p.
Proof.
  unfold ScopedConnection.close.
  destruct (ScopedConnection._connection h), (ScopedConnection._duration h);
    simpl; by rewrite ?release_wait_timeout.
Qed.

(** An idle record is handed out at once, in either mode, when the [get]
    accepts its arguments. *)
Lemma run_takes_idle fuel now block w tr conn rest :
  Queue.items (ConnectionPool._pool (pool w)) = conn :: rest →
  block = false ∨ 0 ≤ ConnectionPool._wait_timeout (pool w) →
  run (S (S fuel)) now (At_empty block) w tr
  = Some (Returned (ScopedConnection.new now conn),
          mk_world (ConnectionPool.set_pool
                      (Queue.mk (Queue.maxsize (ConnectionPool._pool (pool w))) rest)
                      (pool w)) (created w),
          tr ++ [if block then Wait (ConnectionPool._wait_timeout (pool w)) else Poll]).
Proof.
  intros Hq Hok. rewrite run_step by done. simpl. rewrite (empty_false_idle _ _ _ Hq).
  rewrite run_step by done. simpl. rewrite get_allowed by auto. rewrite Hq.
  rewrite run_finished by done. by rewrite app_nil_r.
Qed.

(** [X3]  When a record is idle, a non-blocking [fetch], and a blocking
    one on a pool whose [wait_timeout] is not negative, returns a fresh
    open handle on the oldest idle record and takes it off the queue; it
    constructs nothing and leaves the counter as it is.  A blocking
    [fetch] on a pool whose [wait_timeout] is negative raises the
    [ValueError] of [get] instead and leaves the record idle. *)
Theorem fetch_reuses_oldest_idle fuel now block w conn rest :
  Queue.items (ConnectionPool._pool (pool w)) = conn :: rest →
  (block = false ∨ 0 ≤ ConnectionPool._wait_timeout (pool w) →
   ∃ w',
     fetch (2 + fuel)%nat now block w
     = Some (Returned (ScopedConnection.new now conn), w',
             [if block then Wait (ConnectionPool._wait_timeout (pool w)) else Poll]) ∧
     Queue.items (ConnectionPool._pool (pool w')) = rest ∧
     ConnectionPool.count (pool w') = ConnectionPool.count (pool w) ∧
     created w' = created w) ∧
  (block = true → ConnectionPool._wait_timeout (pool w) < 0 →
   fetch (2 + fuel)%nat now block w
   = Some (Raised (ValueError "'timeout' must be a non-negative number"), w, [])).
Proof.
  intros Hq. split.
  - intros Hok. unfold fetch. simpl Nat.add.
    rewrite (run_takes_idle _ _ _ _ _ _ _ Hq Hok). eexists. by repeat split.
  - intros -> Ht. unfold fetch. simpl Nat.add.
    rewrite run_step by done. simpl. rewrite (empty_false_idle _ _ _ Hq).
    rewrite run_step by done. simpl. unfold Queue.get.
    destruct (Z.ltb_spec (ConnectionPool._wait_timeout (pool w)) 0); [|lia]. simpl.
    by rewrite run_finished by done.
Qed.

Lemma fetch_reuses_oldest_idle_witness :
  let c1 := ConnectionRecord.mk 0 0 "tcp://127.0.0.1:19530" (-1) 5 false
              (GrpcHandler "tcp://127.0.0.1:19530") in
  let c2 := ConnectionRecord.mk 1 1 "tcp://127.0.0.1:19530" (-1) 6 false
              (GrpcHandler "tcp://127.0.0.1:19530") in
  let w := mk_world (ConnectionPool.mk (Queue.mk 0 [c1; c2]) "tcp://127.0.0.1:19530"
                       2 (-1) 10 2 (mk_kwargs None false) ∅) 2 in
  Queue.items (ConnectionPool._pool (pool w)) = c1 :: [c2] ∧
  0 ≤ ConnectionPool._wait_timeout (pool w) ∧
  ∃ w',
    fetch 2 20 true w = Some (Returned (ScopedConnection.new 20 c1), w', [Wait 10]) ∧
    Queue.items (ConnectionPool._pool (pool w')) = [c2] ∧
    ConnectionPool.count (pool w') = ConnectionPool.count (pool w) ∧
    created w' = created w.
Proof.
  intros c1 c2 w. split; [reflexivity|].
  assert (0 ≤ ConnectionPool._wait_timeout (pool w)) as Ht by (by vm_compute).
  split; [exact Ht|].
  apply (proj1 (fetch_reuses_oldest_idle 0 20 true w c1 [c2] eq_refl)). by right.
Defined.

(** [X4]  Close, then fetch: on a pool with nothing idle, closing a handle
    that holds [conn] and fetching again (not blocking, or blocking on a
    pool whose [wait_timeout] is not negative) yields a fresh open handle
    on the same record [conn]; the queue is empty again, the counter and
    the number of records are unchanged. *)
Theorem close_then_fetch_same_record fuel t1 t2 block p n h conn :
  ScopedConnection._connection h = Some conn →
  Queue.maxsize (ConnectionPool._pool p) = 0 →
  Queue.items (ConnectionPool._pool p) = [] →
  block = false ∨ 0 ≤ ConnectionPool._wait_timeout p →
  ∃ w' evs,
    fetch (2 + fuel)%nat t2 block (mk_world (ScopedConnection.close t1 p h).1 n)
    = Some (Returned (ScopedConnection.new t2 conn), w', evs) ∧
    Queue.items (ConnectionPool._pool (pool w')) = [] ∧
    ConnectionPool.count (pool w') = ConnectionPool.count p ∧
    created w' = n.
Proof.
  intros Hc Hm Hq Hok.
  assert (Queue.items (ConnectionPool._pool (ScopedConnection.close t1 p h).1) = [conn])
    as Hq1.
  { rewrite close_pool, Hc, release_unbounded by done. by rewrite Hq. }
  unfold fetch. simpl Nat.add. rewrite (run_takes_idle _ _ _ _ _ conn []); [|done|].
  - eexists _, _. split; [reflexivity|]. simpl. repeat split.
    unfold ConnectionPool.count. simpl. apply close_used_conn.
  - cbn [pool]. by rewrite close_wait_timeout.
Qed.

Lemma close_then_fetch_same_record_witness :
  let conn := ConnectionRecord.mk 0 0 "tcp://127.0.0.1:19530" (-1) 5 false
                (GrpcHandler "tcp://127.0.0.1:19530") in
  let p := ConnectionPool.set_used_conn 1
             (ConnectionPool.new "tcp://127.0.0.1:19530" 1 (-1) 10 (mk_kwargs None false)) in
  let h := ScopedConnection.new 5 conn in
  ScopedConnection._connection h = Some conn ∧
  Queue.maxsize (ConnectionPool._pool p) = 0 ∧
  Queue.items (ConnectionPool._pool p) = [] ∧
  0 ≤ ConnectionPool._wait_timeout p ∧
  ∃ w' evs,
    fetch 2 12 true (mk_world (ScopedConnection.close 9 p h).1 1)
    = Some (Returned (ScopedConnection.new 12 conn), w', evs) ∧
    Queue.items (ConnectionPool._pool (pool w')) = [] ∧
    ConnectionPool.count (pool w') = ConnectionPool.count p ∧
    created w' = 1%nat.
Proof.
  intros conn p h. split; [reflexivity|]. split; [reflexivity|].
  split; [reflexivity|].
  assert (0 ≤ ConnectionPool._wait_timeout p) as Ht by (by vm_compute).
  split; [exact Ht|].
  apply (close_then_fetch_same_record 0 9 12 true p 1 h conn);
    [reflexivity | reflexivity | reflexivity | by right].
Defined.

(** [X5]  A blocking fetch does not construct a record on a pool that has
    handed one out: once the counter is positive, [fetch(block=True)] with
    nothing idle, no release and a [wait_timeout] that is not negative
    ends in [ConnectionPoolError] after its wait, however much capacity is
    left, and changes nothing. *)
Theorem blocking_fetch_never_grows_used_pool fuel now w :
  0 < ConnectionPool.count (pool w) →
  Queue.items (ConnectionPool._pool (pool w)) = [] →
  0 ≤ ConnectionPool._wait_timeout (pool w) →
  fetch (2 + fuel)%nat now true w
  = Some (Raised (ConnectionPoolError "Connection pool is full."), w,
          [Wait (ConnectionPool._wait_timeout (pool w))]).
Proof.
  intros Hu Hq Ht. unfold fetch, ConnectionPool.count in *. simpl Nat.add.
  by rewrite blocking_fetch_nothing_idle.
Qed.

Lemma blocking_fetch_never_grows_used_pool_witness :
  let w := mk_world (ConnectionPool.set_used_conn 1
                       (ConnectionPool.new "tcp://127.0.0.1:19530" 10 (-1) 10
                          (mk_kwargs None false))) 1 in
  0 < ConnectionPool.count (pool w) ∧
  ConnectionPool.count (pool w) < ConnectionPool._pool_size (pool w) ∧
  Queue.items (ConnectionPool._pool (pool w)) = [] ∧
  0 ≤ ConnectionPool._wait_timeout (pool w) ∧
  fetch 2 42 true w
  = Some (Raised (ConnectionPoolError "Connection pool is full."), w, [Wait 10]).
Proof.
  intros w. split; [reflexivity|]. split; [reflexivity|]. split; [reflexivity|].
  split; [by vm_compute|].
  apply (blocking_fetch_never_grows_used_pool 0 42 w);
    [reflexivity | reflexivity | by vm_compute].
Defined.

Lemma new_known fresh now uri rc cid kw :
  known_handler kw →
  ∃ r, ConnectionRecord.new fresh now uri rc cid kw = Ok r ∧
       ConnectionRecord.ident r = fresh ∧ ConnectionRecord._conn_id r = cid ∧
       ConnectionRecord._uri r = uri.
Proof.
  unfold known_handler, ConnectionRecord.new.
  destruct kw as [[hd|] pp]; simpl; intros [Hk|[Hk|Hk]]; simplify_eq;
    repeat case_decide; try done; eauto.
Qed.

Lemma new_unknown fresh now uri rc cid kw :
  ¬ known_handler kw →
  ConnectionRecord.new fresh now uri rc cid kw
  = Raise (ValueError "Unknown handler type. Use GRPC or HTTP").
Proof.
  unfold known_handler, ConnectionRecord.new.
  destruct kw as [[hd|] pp]; simpl; intros Hk.
  - repeat case_decide; try done; exfalso; apply Hk; subst; auto.
  - exfalso. auto.
Qed.

(** A fetch that finds nothing idle and a free slot: the outcome is that of
    the construction of the record, after the slot was taken. *)
Lemma fetch_with_free_slot fuel now block w :
  0 ≤ ConnectionPool._used_conn (pool w) →
  ConnectionPool._used_conn (pool w) < ConnectionPool._pool_size (pool w) →
  Queue.items (ConnectionPool._pool (pool w)) = [] →
  block = false ∨ ConnectionPool._used_conn (pool w) = 0 →
  ∃ pre,
    (∀ t, Wait t ∉ pre) ∧
    fetch (5 + fuel)%nat now block w
    = let p := ConnectionPool.set_used_conn (ConnectionPool._used_conn (pool w) + 1) (pool w) in
      match ConnectionRecord.new (created w) now (ConnectionPool._uri p)
              (ConnectionPool._recycle p) (ConnectionPool._used_conn p - 1)
              (ConnectionPool._kw p) with
      | Ok conn => Some (Returned (ScopedConnection.new now conn),
                         mk_world p (S (created w)), pre ++ [Create (created w)])
      | Raise e => Some (Raised e, mk_world p (created w), pre)
      end.
Proof.
  intros H0 Hlt Hq Hcase.
  destruct (decide (ConnectionPool._used_conn (pool w) = 0)) as [Hz|Hnz].
  - exists []. split; [no_wait|]. unfold fetch. simpl Nat.add.
    rewrite run_step by done. simpl. rewrite empty_true by (done || lia).
    by rewrite create_after_inc_used by done.
  - destruct Hcase as [->|]; [|done]. exists [Poll]. split; [no_wait|].
    by rewrite nonblocking_fetch_below_capacity by (done || lia).
Qed.

(** [X6]  With a known handler kind, nothing idle and a free slot, a
    non-blocking fetch (or any fetch on a pool whose counter is zero)
    constructs a record without waiting and returns an open handle on it:
    the record's identity is the number of records constructed before, its
    [conn_id] is the value the counter had before the call, and the counter
    and the number of records each grow by one. *)
Theorem fetch_creates_numbered_record fuel now block w :
  known_handler (ConnectionPool._kw (pool w)) →
  0 ≤ ConnectionPool.count (pool w) →
  ConnectionPool.count (pool w) < ConnectionPool._pool_size (pool w) →
  Queue.items (ConnectionPool._pool (pool w)) = [] →
  block = false ∨ ConnectionPool.count (pool w) = 0 →
  ∃ r w' evs,
    fetch (5 + fuel)%nat now block w
    = Some (Returned (ScopedConnection.new now r), w', evs) ∧
    (∀ t, Wait t ∉ evs) ∧
    ConnectionRecord.ident r = created w ∧
    ScopedConnection.conn_id (ScopedConnection.new now r)
    = Ok (ConnectionPool.count (pool w)) ∧
    ConnectionPool.count (pool w') = ConnectionPool.count (pool w) + 1 ∧
    created w' = S (created w).
Proof.
  unfold ConnectionPool.count. intros Hk H0 Hlt Hq Hcase.
  destruct (fetch_with_free_slot fuel now block w H0 Hlt Hq Hcase) as (pre & Hpre & ->).
  cbv zeta.
  match goal with
  | |- context [ConnectionRecord.new ?a ?b ?c ?d ?e ?f] =>
      destruct (new_known a b c d e f Hk) as (r & -> & Hid & Hcid & _)
  end.
  eexists _, _, _. split; [reflexivity|]. repeat split; try done.
  - intros t Ht. apply elem_of_app in Ht as [Ht|Ht]; [by eapply Hpre|].
    apply list_elem_of_singleton in Ht. discriminate Ht.
  - unfold ScopedConnection.conn_id. simpl. rewrite Hcid. simpl. f_equal. lia.
Qed.

Lemma fetch_creates_numbered_record_witness :
  let w := mk_world (ConnectionPool.set_used_conn 3
                       (ConnectionPool.new "tcp://127.0.0.1:19530" 10 (-1) 10
                          (mk_kwargs (Some "HTTP"%string) false))) 3 in
  known_handler (ConnectionPool._kw (pool w)) ∧
  0 ≤ ConnectionPool.count (pool w) ∧
  ConnectionPool.count (pool w) < ConnectionPool._pool_size (pool w) ∧
  Queue.items (ConnectionPool._pool (pool w)) = [] ∧
  ∃ r w' evs,
    fetch 5 42 false w = Some (Returned (ScopedConnection.new 42 r), w', evs) ∧
    (∀ t, Wait t ∉ evs) ∧
    ConnectionRecord.ident r = created w ∧
    ScopedConnection.conn_id (ScopedConnection.new 42 r)
    = Ok (ConnectionPool.count (pool w)) ∧
    ConnectionPool.count (pool w') = ConnectionPool.count (pool w) + 1 ∧
    created w' = S (created w).
Proof.
  intros w.
  assert (known_handler (ConnectionPool._kw (pool w))) as Hk.
  { right. right. reflexivity. }
  split; [exact Hk|]. split; [by vm_compute|]. split; [reflexivity|].
  split; [reflexivity|].
  apply (fetch_creates_numbered_record 0 42 false w Hk);
    [by vm_compute | reflexivity | reflexivity | by left].
Defined.

(** [X7]  With an unknown handler kind the construction of the record
    fails after the slot was taken: the fetch raises the constructor's
    [ValueError], no record exists, and the counter has grown by one all
    the same. *)
Theorem unknown_handler_leaks_slot fuel now block w :
  ¬ known_handler (ConnectionPool._kw (pool w)) →
  0 ≤ ConnectionPool.count (pool w) →
  ConnectionPool.count (pool w) < ConnectionPool._pool_size (pool w) →
  Queue.items (ConnectionPool._pool (pool w)) = [] →
  block = false ∨ ConnectionPool.count (pool w) = 0 →
  ∃ w' evs,
    fetch (5 + fuel)%nat now block w
    = Some (Raised (ValueError "Unknown handler type. Use GRPC or HTTP"), w', evs) ∧
    ConnectionPool.count (pool w') = ConnectionPool.count (pool w) + 1 ∧
    created w' = created w ∧
    Queue.items (ConnectionPool._pool (pool w')) = [].
Proof.
  unfold ConnectionPool.count. intros Hk H0 Hlt Hq Hcase.
  destruct (fetch_with_free_slot fuel now block w H0 Hlt Hq Hcase) as (pre & Hpre & ->).
  cbv zeta.
  match goal with
  | |- context [ConnectionRecord.new ?a ?b ?c ?d ?e ?f] =>
      rewrite (new_unknown a b c d e f Hk)
  end.
  eexists _, _. split; [reflexivity|]. by repeat split.
Qed.

Lemma unknown_handler_leaks_slot_witness :
  let w := mk_world (ConnectionPool.new "tcp://127.0.0.1:19530" 10 (-1) 10
                       (mk_kwargs (Some "grpc"%string) false)) 0 in
  ¬ known_handler (ConnectionPool._kw (pool w)) ∧
  0 ≤ ConnectionPool.count (pool w) ∧
  ConnectionPool.count (pool w) < ConnectionPool._pool_size (pool w) ∧
  Queue.items (ConnectionPool._pool (pool w)) = [] ∧
  ∃ w' evs,
    fetch 5 42 true w
    = Some (Raised (ValueError "Unknown handler type. Use GRPC or HTTP"), w', evs) ∧
    ConnectionPool.count (pool w') = ConnectionPool.count (pool w) + 1 ∧
    created w' = created w ∧
    Queue.items (ConnectionPool._pool (pool w')) = [].
Proof.
  intros w.
  assert (¬ known_handler (ConnectionPool._kw (pool w))) as Hk.
  { intros [H|[H|H]]; discriminate H. }
  split; [exact Hk|]. split; [by vm_compute|]. split; [reflexivity|].
  split; [reflexivity|].
  apply (unknown_handler_leaks_slot 0 42 true w Hk);
    [by vm_compute | reflexivity | reflexivity | by right].
Defined.

(** [X8]  The idle queue is first in, first out, and [release] does not
    look at what it is given: two records released one after the other
    into a pool with nothing idle are handed out by the next two fetches
    (each not blocking, or blocking on a pool whose [wait_timeout] is not
    negative) in the order of their release (twice the same record when
    one record was released twice), after which nothing is idle and the
    counter is what it was. *)
Theorem released_records_return_in_order fuel t1 t2 b1 b2 p n c1 c2 :
  Queue.maxsize (ConnectionPool._pool p) = 0 →
  Queue.items (ConnectionPool._pool p) = [] →
  b1 = false ∨ 0 ≤ ConnectionPool._wait_timeout p →
  b2 = false ∨ 0 ≤ ConnectionPool._wait_timeout p →
  ∃ w1 w2 ev1 ev2,
    fetch (2 + fuel)%nat t1 b1
      (mk_world (ConnectionPool.release c2 (ConnectionPool.release c1 p)) n)
    = Some (Returned (ScopedConnection.new t1 c1), w1, ev1) ∧
    fetch (2 + fuel)%nat t2 b2 w1
    = Some (Returned (ScopedConnection.new t2 c2), w2, ev2) ∧
    Queue.items (ConnectionPool._pool (pool w2)) = [] ∧
    ConnectionPool.count (pool w2) = ConnectionPool.count p ∧
    created w2 = n.
Proof.
  intros Hm Hq Hb1 Hb2.
  assert (ConnectionPool._pool (ConnectionPool.release c2 (ConnectionPool.release c1 p))
          = Queue.mk 0 [c1; c2]) as Hq2.
  { rewrite release_unbounded; rewrite release_unbounded by done; [|done].
    simpl. by rewrite Hq. }
  unfold fetch. simpl Nat.add.
  rewrite (run_takes_idle _ _ _ _ _ c1 [c2]); cycle 1.
  { cbn [pool]. by rewrite Hq2. }
  { cbn [pool]. by rewrite !release_wait_timeout. }
  eexists _, _, _, _. split; [reflexivity|].
  rewrite (run_takes_idle _ _ _ _ _ c2 []); cycle 1.
  { done. }
  { cbn [pool ConnectionPool._wait_timeout ConnectionPool.set_pool].
    by rewrite !release_wait_timeout. }
  split; [reflexivity|]. simpl. repeat split.
  unfold ConnectionPool.count. simpl. by rewrite !release_used_conn.
Qed.

Lemma released_records_return_in_order_witness :
  let conn := ConnectionRecord.mk 0 0 "tcp://127.0.0.1:19530" (-1) 5 false
                (GrpcHandler "tcp://127.0.0.1:19530") in
  let p := ConnectionPool.set_used_conn 1
             (ConnectionPool.new "tcp://127.0.0.1:19530" 1 (-1) 10 (mk_kwargs None false)) in
  Queue.maxsize (ConnectionPool._pool p) = 0 ∧
  Queue.items (ConnectionPool._pool p) = [] ∧
  0 ≤ ConnectionPool._wait_timeout p ∧
  ∃ w1 w2 ev1 ev2,
    fetch 2 20 false
      (mk_world (ConnectionPool.release conn (ConnectionPool.release conn p)) 1)
    = Some (Returned (ScopedConnection.new 20 conn), w1, ev1) ∧
    fetch 2 21 true w1 = Some (Returned (ScopedConnection.new 21 conn), w2, ev2) ∧
    Queue.items (ConnectionPool._pool (pool w2)) = [] ∧
    ConnectionPool.count (pool w2) = ConnectionPool.count p ∧
    created w2 = 1%nat.
Proof.
  intros conn p. split; [reflexivity|]. split; [reflexivity|].
  assert (0 ≤ ConnectionPool._wait_timeout p) as Ht by (by vm_compute).
  split; [exact Ht|].
  apply (released_records_return_in_order 0 20 21 false true p 1 conn conn);
    [reflexivity | reflexivity | by left | by right].
Defined.

(** The construction of a record never ends in [ConnectionPoolError]. *)
Lemma run_create_not_exhausted fuel now w tr msg w' tr' :
  run fuel now At_create_connection w tr
  ≠ Some (Raised (ConnectionPoolError msg), w', tr').
Proof.
  destruct fuel as [|fuel]; [done|].
  rewrite run_step by done. simpl.
  unfold ConnectionRecord.new. repeat case_decide; by rewrite run_finished.
Qed.

Lemma run_exhausted_same_world fuel now c w tr msg w' tr' :
  c ≠ At_create_connection →
  run fuel now c w tr = Some (Raised (ConnectionPoolError msg), w', tr') →
  w' = w.
Proof.
  revert c tr. induction fuel as [|fuel IH]; intros c tr Hc Hrun.
  { destruct c; cbv [run finished] in Hrun; by simplify_eq. }
  destruct c as [block|block| | | |h|e].
  - rewrite run_step in Hrun by done. simpl in Hrun.
    destruct (ConnectionPool._empty (pool w)); by eapply IH; [|exact Hrun].
  - rewrite run_step in Hrun by done. simpl in Hrun.
    destruct (Queue.get _ _ _) as [[conn q]|[]]; try destruct block;
      try (rewrite run_finished in Hrun by done; by simplify_eq).
    by eapply IH; [|exact Hrun].
  - rewrite run_step in Hrun by done. simpl in Hrun.
    destruct (ConnectionPool._full (pool w)); by eapply IH; [|exact Hrun].
  - rewrite run_step in Hrun by done. simpl in Hrun.
    unfold ConnectionPool._inc_used in Hrun.
    destruct (_ <? _).
    + by apply run_create_not_exhausted in Hrun.
    + destruct w. by eapply IH; [|exact Hrun].
  - done.
  - rewrite run_finished in Hrun by done. by simplify_eq.
  - rewrite run_finished in Hrun by done. by simplify_eq.
Qed.

(** [X9]  A fetch that ends in [ConnectionPoolError] has changed nothing:
    the counter, the idle queue, the recorded durations and the number of
    records are what they were before the call, so that a timed-out fetch
    holds no slot. *)
Theorem exhausted_fetch_changes_nothing fuel now block w msg w' evs :
  fetch fuel now block w = Some (Raised (ConnectionPoolError msg), w', evs) →
  w' = w.
Proof. unfold fetch. by apply run_exhausted_same_world. Qed.

Lemma exhausted_fetch_changes_nothing_witness :
  let w := mk_world (ConnectionPool.set_used_conn 2
                       (ConnectionPool.new "tcp://127.0.0.1:19530" 2 (-1) 10
                          (mk_kwargs None false))) 2 in
  fetch 5 42 false w
  = Some (Raised (ConnectionPoolError "Connection pool is full."), w, [Poll; Wait 10]) ∧
  w = w.
Proof.
  intros w. split; [reflexivity|].
  symmetry.
  apply (exhausted_fetch_changes_nothing 5 42 false w "Connection pool is full."
           w [Poll; Wait 10]).
  reflexivity.
Defined.

(** ** More on scoped handles *)

(** [X10]  An open handle stands for its transport.  [connection()] gives
    the record; without [pre_ping], [client()] gives the record's transport
    without probing, and an attribute asked of the handle is the attribute
    of the transport; with [pre_ping], the probe [connect] (timeout 2) is
    made first, and its exception, if any, is what [client()] and the
    forwarded attribute raise. *)
Theorem open_handle_forwards
    (connect : Handler → string → Z → result unit) (Attr : Type)
    (handler_getattr : Handler → string → result Attr) now conn item :
  let h := ScopedConnection.new now conn in
  let tr := ConnectionRecord._connection conn in
  let probe := connect tr (ConnectionRecord._uri conn) 2 in
  ScopedConnection.connection h = Ok (Some conn) ∧
  (ConnectionRecord._kw_pre_ping conn = false ∨ probe = Ok () →
   ScopedConnection.client connect h = Ok tr ∧
   ScopedConnection.getattr connect Attr handler_getattr h item
   = handler_getattr tr item) ∧
  (∀ e, ConnectionRecord._kw_pre_ping conn = true → probe = Raise e →
        ScopedConnection.client connect h = Raise e ∧
        ScopedConnection.getattr connect Attr handler_getattr h item = Raise e).
Proof.
  intros h tr probe. subst h tr probe.
  unfold ScopedConnection.getattr, ScopedConnection.client,
    ScopedConnection.connection, ConnectionRecord.connection. simpl.
  split; [done|]. split.
  - intros [->| ->]; [done|]. by destruct (ConnectionRecord._kw_pre_ping conn).
  - intros e -> ->. done.
Qed.

Lemma open_handle_forwards_witness :
  let conn := ConnectionRecord.mk 0 0 "tcp://127.0.0.1:19530" (-1) 5 true
                (GrpcHandler "tcp://127.0.0.1:19530") in
  let connect := fun (_ : Handler) (_ : string) (_ : Z) =>
                   @Raise unit (ValueError "unreachable") in
  let getter := fun (_ : Handler) (name : string) => Ok name in
  ConnectionRecord._kw_pre_ping conn = true ∧
  connect (ConnectionRecord._connection conn) (ConnectionRecord._uri conn) 2
  = Raise (ValueError "unreachable") ∧
  ScopedConnection.client connect (ScopedConnection.new 7 conn)
  = Raise (ValueError "unreachable") ∧
  ScopedConnection.getattr connect string getter (ScopedConnection.new 7 conn)
    "create_index" = Raise (ValueError "unreachable").
Proof.
  intros conn connect getter. split; [reflexivity|]. split; [reflexivity|].
  apply (proj2 (proj2 (open_handle_forwards connect string getter 7 conn
                         "create_index"))); reflexivity.
Defined.

(** [X11]  [conn_id()] is not guarded by the closed flag: on an open handle
    it is the [conn_id] of the record, and on a closed handle it raises
    [AttributeError] (the record is gone), not the [ValueError] the other
    accessors raise. *)
Theorem conn_id_of_closed_handle now t p h conn :
  ScopedConnection.conn_id (ScopedConnection.new t conn)
  = Ok (ConnectionRecord._conn_id conn) ∧
  ScopedConnection.conn_id (ScopedConnection.close now p h).2
  = Raise (AttributeError "'NoneType' object has no attribute '_conn_id'").
Proof. split; [done|]. by rewrite close_handle. Qed.

(** [X12]  Closing, at a non-zero clock reading [t1], a handle that was
    made at [t0] and not closed since records a duration whose value is
    [t1 - t0]; it goes to the end of the history kept under [None], whose
    oldest entry is dropped first when the history holds 10,000 entries. *)
Theorem close_records_elapsed_time t0 t1 p conn :
  t1 ≠ 0 →
  let p' := (ScopedConnection.close t1 p (ScopedConnection.new t0 conn)).1 in
  let old := default [] (ConnectionPool.durations p !! None) in
  ∃ d, Duration.value d = Some (t1 - t0) ∧
       ConnectionPool.durations p' !! None
       = Some ((if 10000 <=? Z.of_nat (length old) then tail old else old) ++ [d]).
Proof.
  intros Ht1 p' old.
  exists (Duration.mk t0 (Some t1)). split.
  - unfold Duration.value. simpl. by destruct (Z.eqb_spec t1 0).
  - subst p' old.
    assert ((ScopedConnection.close t1 p (ScopedConnection.new t0 conn)).1
            = ConnectionPool.record_duration None (Duration.mk t0 (Some t1))
                (ConnectionPool.release conn p)) as -> by done.
    by rewrite record_duration_lookup, release_durations.
Qed.

Lemma close_records_elapsed_time_witness :
  let conn := ConnectionRecord.mk 0 0 "tcp://127.0.0.1:19530" (-1) 5 false
                (GrpcHandler "tcp://127.0.0.1:19530") in
  let p := ConnectionPool.set_used_conn 1
             (ConnectionPool.new "tcp://127.0.0.1:19530" 1 (-1) 10 (mk_kwargs None false)) in
  let p' := (ScopedConnection.close 9 p (ScopedConnection.new 5 conn)).1 in
  9 ≠ 0 ∧
  ∃ d, Duration.value d = Some (9 - 5) ∧
       ConnectionPool.durations p' !! None
       = Some ((if 10000 <=? Z.of_nat (length (default [] (ConnectionPool.durations p !! None)))
                then tail (default [] (ConnectionPool.durations p !! None))
                else default [] (ConnectionPool.durations p !! None)) ++ [d]).
Proof.
  intros conn p p'. split; [done|].
  apply (close_records_elapsed_time 5 9 p conn). done.
Defined.

(** ** More on several callers *)

(** [X13]  No record is lost or duplicated by fetch and close: at every
    point of every schedule in which records return through the close of
    their handle, the idle records and the open handles together are as
    many as the records the pool has constructed; once every handle is
    closed, all of them are idle. *)
Theorem idle_and_held_are_all_records
    uri pool_size recycle wait_timeout kw (sched : list label) :
  forallb scoped sched = true →
  let s := execs (init (ConnectionPool.new uri pool_size recycle wait_timeout kw)) sched in
  Queue.qsize (ConnectionPool._pool (pool (shared s)))
  + Z.of_nat (tally holding (calls s)) = Z.of_nat (created (shared s)) ∧
  (tally holding (calls s) = 0%nat →
   Queue.qsize (ConnectionPool._pool (pool (shared s))) = Z.of_nat (created (shared s))).
Proof.
  intros Hsc s.
  destruct (execs_placed _ sched Hsc
              (init_placed uri pool_size recycle wait_timeout kw)) as [_ Hn].
  fold s in Hn. unfold Queue.qsize. split; [lia|]. intros Hz. lia.
Qed.

Lemma idle_and_held_are_all_records_witness :
  let sched := [Fetch false; Fetch false; Step 0 5; Step 1 5; Step 0 5; Step 1 5;
                Step 0 6; Step 1 6; Close 0 9; Fetch true; Step 2 10; Step 2 10] in
  let s := execs (init (ConnectionPool.new "tcp://127.0.0.1:19530" 2 (-1) 10
                          (mk_kwargs None false))) sched in
  forallb scoped sched = true ∧
  Queue.qsize (ConnectionPool._pool (pool (shared s)))
  + Z.of_nat (tally holding (calls s)) = Z.of_nat (created (shared s)).
Proof.
  intros sched s. split; [reflexivity|].
  apply (idle_and_held_are_all_records "tcp://127.0.0.1:19530" 2 (-1) 10
           (mk_kwargs None false) sched). reflexivity.
Defined.

Lemma release_kw conn p :
  ConnectionPool._kw (ConnectionPool.release conn p) = ConnectionPool._kw p.
Proof. unfold ConnectionPool.release. by destruct (Queue.put_nowait _ _). Qed.

Lemma close_kw now p h :
  ConnectionPool._kw (ScopedConnection.close now p h).1 = ConnectionPool._kw p.
Proof.
  unfold ScopedConnection.close.
  destruct (ScopedConnection._connection h), (ScopedConnection._duration h);
    simpl; by rewrite ?release_kw.
Qed.

(** With a known handler kind no construction fails, and a step moves the
    counter exactly as it moves the records and the reservations. *)
Lemma step_balance now c w c' w' evs :
  known_handler (ConnectionPool._kw (pool w)) →
  step now c w = (c', w', evs) →
  ConnectionPool._kw (pool w') = ConnectionPool._kw (pool w) ∧
  Z.of_nat (created w') + Z.of_nat (reserved c') + ConnectionPool._used_conn (pool w)
  = Z.of_nat (created w) + Z.of_nat (reserved c) + ConnectionPool._used_conn (pool w').
Proof.
  intros Hk Hs. destruct c; simpl in Hs.
  - destruct (ConnectionPool._empty _); simplify_eq/=; split; (done || lia).
  - destruct (Queue.get _ _ _) as [[conn q]|[]]; try destruct block;
      simplify_eq/=; split; (done || lia).
  - destruct (ConnectionPool._full _); simplify_eq/=; split; (done || lia).
  - unfold ConnectionPool._inc_used in Hs.
    destruct (_ <? _); simplify_eq/=; split; (done || lia).
  - destruct (new_known (created w) now (ConnectionPool._uri (pool w))
                (ConnectionPool._recycle (pool w))
                (ConnectionPool._used_conn (pool w) - 1) _ Hk) as (r & Hr & _).
    rewrite Hr in Hs. simplify_eq/=. split; (done || lia).
  - simplify_eq/=; split; (done || lia).
  - simplify_eq/=; split; (done || lia).
Qed.

Lemma exec_balanced s l :
  known_handler (ConnectionPool._kw (pool (shared s))) →
  balanced s →
  known_handler (ConnectionPool._kw (pool (shared (exec s l)))) ∧ balanced (exec s l).
Proof.
  unfold balanced. intros Hk Hb. destruct l as [b|i now|i now|conn]; simpl.
  - split; [done|]. rewrite tally_app. simpl. lia.
  - destruct (calls s !! i) as [c|] eqn:Hi; [|done].
    destruct (step now c (shared s)) as [[c' w'] evs] eqn:Hs.
    apply step_balance in Hs as [Hkw H]; [|done]. simpl. rewrite Hkw.
    split; [done|].
    pose proof (tally_insert reserved _ _ _ c' Hi). lia.
  - destruct (calls s !! i) as [[| | | | |h|]|] eqn:Hi; try done.
    pose proof (close_used_conn now (pool (shared s)) h) as Hc.
    pose proof (close_kw now (pool (shared s)) h) as Hkw.
    destruct (ScopedConnection.close _ _ _) as [p' h']; simpl in *.
    rewrite Hkw. split; [done|].
    pose proof (tally_insert reserved _ _ _ (Returned h') Hi). simpl in *. lia.
  - rewrite release_kw, release_used_conn. split; [done | lia].
Qed.

Lemma execs_balanced s sched :
  known_handler (ConnectionPool._kw (pool (shared s))) →
  balanced s → balanced (execs s sched).
Proof.
  intros Hk Hb.
  cut (known_handler (ConnectionPool._kw (pool (shared (execs s sched))))
       ∧ balanced (execs s sched)); [by intros [_ ?]|].
  induction sched as [|l sched [IHk IHb]] using rev_ind; [done|].
  rewrite execs_snoc. by apply exec_balanced.
Qed.

(** [X14]  [activate_count()] counts what is checked out.  With a known
    handler kind, at every point of every schedule in which records return
    through the close of their handle, [activate_count()] is the number of
    open handles plus the number of calls that have reserved a slot and
    are about to construct their record. *)
Theorem activate_count_is_checked_out
    uri pool_size recycle wait_timeout kw (sched : list label) :
  known_handler kw →
  forallb scoped sched = true →
  let s := execs (init (ConnectionPool.new uri pool_size recycle wait_timeout kw)) sched in
  ConnectionPool.activate_count (pool (shared s))
  = Z.of_nat (tally holding (calls s)) + Z.of_nat (tally reserved (calls s)).
Proof.
  intros Hk Hsc s.
  set (p0 := ConnectionPool.new uri pool_size recycle wait_timeout kw) in *.
  destruct (execs_placed _ sched Hsc
              (init_placed uri pool_size recycle wait_timeout kw)) as [_ Hn].
  assert (balanced (execs (init p0) sched)) as Hb.
  { apply execs_balanced; [done|]. unfold balanced. simpl. lia. }
  unfold balanced in Hb. fold p0 in Hn. fold s in Hn, Hb.
  unfold ConnectionPool.activate_count, Queue.qsize. lia.
Qed.

Lemma activate_count_is_checked_out_witness :
  let sched := [Fetch false; Fetch false; Step 0 5; Step 1 5; Step 0 5; Step 1 5;
                Step 0 6; Close 0 9; Fetch true; Step 2 10; Step 2 10] in
  let s := execs (init (ConnectionPool.new "tcp://127.0.0.1:19530" 2 (-1) 10
                          (mk_kwargs None false))) sched in
  known_handler (mk_kwargs None false) ∧
  forallb scoped sched = true ∧
  ConnectionPool.activate_count (pool (shared s))
  = Z.of_nat (tally holding (calls s)) + Z.of_nat (tally reserved (calls s)).
Proof.
  intros sched s.
  assert (known_handler (mk_kwargs None false)) as Hk by (by left).
  split; [exact Hk|]. split; [reflexivity|].
  apply (activate_count_is_checked_out "tcp://127.0.0.1:19530" 2 (-1) 10
           (mk_kwargs None false) sched Hk). reflexivity.
Defined.

Lemma held_insert_perm (cs : list call) i c c' :
  cs !! i = Some c →
  held c ++ (<[i := c']> cs ≫= held) ≡ₚ held c' ++ (cs ≫= held).
Proof.
  revert i. induction cs as [|d cs IH]; intros [|i] Hi; simplify_eq/=.
  - apply Permutation_app_swap_app.
  - rewrite Permutation_app_swap_app, (IH _ Hi).
    apply Permutation_app_swap_app.
Qed.

(** Replacing call [i] moves the records as the replacement says. *)
Lemma owned_update (cs : list call) i c c' (fresh ids ids' : list nat) :
  cs !! i = Some c →
  fresh ++ ids ++ held c ≡ₚ ids' ++ held c' →
  ids' ++ (<[i := c']> cs ≫= held) ≡ₚ fresh ++ ids ++ (cs ≫= held).
Proof.
  intros Hi Hmove. apply (Permutation_app_inv_l (held c)).
  rewrite Permutation_app_swap_app, (held_insert_perm _ _ _ c' Hi).
  rewrite (app_assoc ids'), <- Hmove.
  rewrite <- !app_assoc.
  rewrite (Permutation_app_swap_app (held c) fresh).
  f_equiv. apply Permutation_app_swap_app.
Qed.

(** What a step does to the places of the records: at most one new
    record, whose identity is the number of records so far. *)
Lemma step_moves now c w c' w' evs :
  step now c w = (c', w', evs) →
  Queue.maxsize (ConnectionPool._pool (pool w'))
  = Queue.maxsize (ConnectionPool._pool (pool w)) ∧
  ∃ fresh,
    (fresh = [] ∧ created w' = created w
     ∨ fresh = [created w] ∧ created w' = S (created w)) ∧
    fresh ++ (ConnectionRecord.ident <$> Queue.items (ConnectionPool._pool (pool w)))
          ++ held c
    ≡ₚ (ConnectionRecord.ident <$> Queue.items (ConnectionPool._pool (pool w')))
       ++ held c'.
Proof.
  intros Hs. destruct c; simpl in Hs.
  - destruct (ConnectionPool._empty _); simplify_eq/=; split; [done| |done|];
      exists []; split; auto.
  - destruct (Queue.get _ _ _) as [[conn q]|e] eqn:Hg.
    + apply get_Ok in Hg as [Hq Hm]. simplify_eq/=. split; [done|].
      exists []. split; [auto|]. rewrite Hq. simpl. rewrite app_nil_r.
      apply Permutation_cons_append.
    + destruct e; try destruct block; simplify_eq/=; (split; [done|]);
        exists []; split; auto.
  - destruct (ConnectionPool._full _); simplify_eq/=; split; [done| |done|];
      exists []; split; auto.
  - unfold ConnectionPool._inc_used in Hs.
    destruct (_ <? _); simplify_eq/=; split; [done| |done|];
      exists []; split; auto.
  - unfold ConnectionRecord.new in Hs.
    repeat case_decide; simplify_eq/=; (split; [done|]).
    + exists [created w]. split; [auto|]. simpl. rewrite app_nil_r.
      apply Permutation_cons_append.
    + exists [created w]. split; [auto|]. simpl. rewrite app_nil_r.
      apply Permutation_cons_append.
    + exists []. split; auto.
  - simplify_eq/=. split; [done|]. exists []. split; auto.
  - simplify_eq/=. split; [done|]. exists []. split; auto.
Qed.

Lemma exec_exclusive s l : scoped l = true → exclusive s → exclusive (exec s l).
Proof.
  intros Hl (Hm & Hnd & Hlt). unfold exclusive, owned in *.
  destruct l as [b|i now|i now|conn]; simpl; try done.
  - rewrite bind_app. simpl. by rewrite app_nil_r.
  - destruct (calls s !! i) as [c|] eqn:Hi; [|done].
    destruct (step now c (shared s)) as [[c' w'] evs] eqn:Hs.
    apply step_moves in Hs as (Hm' & fresh & Hfresh & Hmove).
    pose proof (owned_update _ _ _ c' _ _ _ Hi Hmove) as Hown. simpl.
    split; [congruence|].
    destruct Hfresh as [[-> Hcr]|[-> Hcr]]; rewrite Hcr; simpl in Hown.
    + split; [by rewrite Hown|]. intros x Hx. rewrite Hown in Hx. auto.
    + split.
      * rewrite Hown. apply NoDup_cons. split; [|done].
        intros Hin. apply Hlt in Hin. lia.
      * intros x Hx. rewrite Hown in Hx.
        apply elem_of_cons in Hx as [->|Hx]; [lia|].
        apply Hlt in Hx. lia.
  - destruct (calls s !! i) as [[| | | | |h|]|] eqn:Hi; try done.
    pose proof (close_pool now (pool (shared s)) h) as Hp.
    pose proof (close_handle now (pool (shared s)) h) as Hh.
    destruct (ScopedConnection.close _ _ _) as [p' h']. simpl in *. subst h'.
    assert (Queue.maxsize (ConnectionPool._pool p') = 0 ∧
            [] ++ (ConnectionRecord.ident
                     <$> Queue.items (ConnectionPool._pool (pool (shared s))))
               ++ held (Returned h)
            ≡ₚ (ConnectionRecord.ident <$> Queue.items (ConnectionPool._pool p'))
               ++ held (Returned (ScopedConnection.mk None None true)))
      as [Hm' Hmove].
    { rewrite Hp. simpl. destruct (ScopedConnection._connection h) as [conn|].
      - rewrite release_unbounded by done. simpl.
        by rewrite fmap_app, !app_nil_r.
      - done. }
    pose proof (owned_update _ _ _ _ _ _ _ Hi Hmove) as Hown.
    simpl in Hown. split; [done|].
    split; [by rewrite Hown|]. intros x Hx. rewrite Hown in Hx. auto.
Qed.

Lemma execs_exclusive s sched :
  forallb scoped sched = true → exclusive s → exclusive (execs s sched).
Proof.
  intros Hsc Hs. induction sched as [|l sched IH] using rev_ind; [done|].
  rewrite forallb_app in Hsc. apply andb_prop in Hsc as [H1 H2].
  simpl in H2. rewrite andb_true_r in H2.
  rewrite execs_snoc. apply exec_exclusive; auto.
Qed.

(** [X15]  A record is in one place at a time.  At every point of every
    schedule in which records return through the close of their handle,
    the identities of the idle records and of the records held by open
    handles are pairwise distinct: no record is idle twice, idle while
    held, or held by two open handles; and each of them is a record the
    pool has constructed. *)
Theorem record_is_in_one_place
    uri pool_size recycle wait_timeout kw (sched : list label) :
  forallb scoped sched = true →
  let s := execs (init (ConnectionPool.new uri pool_size recycle wait_timeout kw)) sched in
  NoDup (owned s) ∧ ∀ x, x ∈ owned s → (x < created (shared s))%nat.
Proof.
  intros Hsc s.
  assert (exclusive (init (ConnectionPool.new uri pool_size recycle wait_timeout kw)))
    as Hinit.
  { split; [done|]. split; [apply NoDup_nil_2|]. intros x Hx.
    by apply elem_of_nil in Hx. }
  by destruct (execs_exclusive _ sched Hsc Hinit) as (_ & ? & ?).
Qed.

Lemma record_is_in_one_place_witness :
  let sched := [Fetch false; Fetch false; Step 0 5; Step 1 5; Step 0 5; Step 1 5;
                Step 0 6; Step 1 6; Close 0 9; Fetch true; Step 2 10; Step 2 10] in
  let s := execs (init (ConnectionPool.new "tcp://127.0.0.1:19530" 2 (-1) 10
                          (mk_kwargs None false))) sched in
  forallb scoped sched = true ∧
  NoDup (owned s) ∧ ∀ x, x ∈ owned s → (x < created (shared s))%nat.
Proof.
  intros sched s. split; [reflexivity|].
  apply (record_is_in_one_place "tcp://127.0.0.1:19530" 2 (-1) 10
           (mk_kwargs None false) sched). reflexivity.
Defined.

(** A step of a call lowers its rank; a finished call stays at rank 0. *)
(** Cases on the sign of the counter read by [rank]. *)
Ltac by_sign :=
  match goal with
  | |- context [0 <? ?x] => destruct (Z.ltb_spec 0 x)
  end.

Lemma step_rank now c w c' w' evs :
  0 < ConnectionPool._pool_size (pool w) →
  step now c w = (c', w', evs) →
  (rank c' w' ≤ rank c w - 1)%nat.
Proof.
  intros Hsize Hs. destruct c; simpl in Hs.
  - unfold ConnectionPool._empty in Hs.
    destruct (Queue.qsize _ <=? 0); simpl in Hs;
      [destruct (Z.leb_spec (ConnectionPool._used_conn (pool w)) 0)|];
      simplify_eq/=; destruct block; simpl;
      try by_sign; lia.
  - destruct (Queue.get _ _ _) as [[conn q]|[]]; try destruct block;
      simplify_eq/=; lia.
  - unfold ConnectionPool._full in Hs.
    destruct (Z.leb_spec (ConnectionPool._pool_size (pool w))
                (ConnectionPool._used_conn (pool w))); simplify_eq/=; [|lia].
    by_sign; lia.
  - unfold ConnectionPool._inc_used in Hs.
    destruct (Z.ltb_spec (ConnectionPool._used_conn (pool w))
                (ConnectionPool._pool_size (pool w))); simplify_eq/=; [lia|].
    by_sign; lia.
  - destruct (ConnectionRecord.new _ _ _ _ _ _); simplify_eq/=; lia.
  - simplify_eq/=; lia.
  - simplify_eq/=; lia.
Qed.

(** What other callers do can only lower the rank of a call. *)
Lemma rank_mono c w w' :
  ConnectionPool._used_conn (pool w) ≤ ConnectionPool._used_conn (pool w') →
  (rank c w' ≤ rank c w)%nat.
Proof.
  intros Hle. destruct c as [[]| | | | | |]; simpl; try lia.
  destruct (Z.ltb_spec 0 (ConnectionPool._used_conn (pool w)));
    destruct (Z.ltb_spec 0 (ConnectionPool._used_conn (pool w'))); lia.
Qed.

Lemma exec_rank s l i c :
  0 < ConnectionPool._pool_size (pool (shared s)) →
  calls s !! i = Some c →
  ∃ c', calls (exec s l) !! i = Some c' ∧
        (rank c' (shared (exec s l)) ≤ rank c (shared s) - steps_of i [l])%nat.
Proof.
  intros Hsize Hi. destruct l as [b|j now|j now|conn]; simpl.
  - exists c. split; [by apply lookup_app_l_Some | lia].
  - destruct (calls s !! j) as [d|] eqn:Hj.
    + destruct (step now d (shared s)) as [[d' w'] evs] eqn:Hs. simpl.
      case_decide as Hji.
      * subst j. simplify_eq. exists d'. split.
        -- apply list_lookup_insert_eq. by eapply lookup_lt_Some.
        -- by eapply step_rank.
      * exists c. split; [by rewrite list_lookup_insert_ne|].
        apply step_accounting in Hs as (_ & Hmono & _).
        pose proof (rank_mono c _ _ Hmono). lia.
    + case_decide as Hji; [subst j; by rewrite Hi in Hj|].
      exists c. split; [done | lia].
  - destruct (calls s !! j) as [[| | | | |h|]|] eqn:Hj;
      try (exists c; split; [done | lia]).
    pose proof (close_used_conn now (pool (shared s)) h) as Hu.
    destruct (ScopedConnection.close _ _ _) as [p' h']. simpl in *.
    destruct (decide (j = i)) as [->|Hji].
    + simplify_eq. exists (Returned h'). split; [|simpl; lia].
      apply list_lookup_insert_eq. by eapply lookup_lt_Some.
    + exists c. split; [by rewrite list_lookup_insert_ne|].
      assert (rank c {| pool := p'; created := created (shared s) |}
              ≤ rank c (shared s))%nat; [|lia].
      apply rank_mono. simpl. lia.
  - exists c. split; [done|].
    assert (rank c {| pool := ConnectionPool.release conn (pool (shared s));
                      created := created (shared s) |}
            ≤ rank c (shared s))%nat; [|lia].
    apply rank_mono. simpl. rewrite release_used_conn. lia.
Qed.

Lemma steps_of_app i sched1 sched2 :
  steps_of i (sched1 ++ sched2) = (steps_of i sched1 + steps_of i sched2)%nat.
Proof.
  induction sched1 as [|[b|j now|j now|conn] sched1 IH]; simpl; try done.
  case_decide; lia.
Qed.

Lemma execs_rank s sched i c :
  0 < ConnectionPool._pool_size (pool (shared s)) →
  calls s !! i = Some c →
  ∃ c', calls (execs s sched) !! i = Some c' ∧
        (rank c' (shared (execs s sched)) ≤ rank c (shared s) - steps_of i sched)%nat.
Proof.
  intros Hsize Hi. induction sched as [|l sched (c1 & Hc1 & Hr1)] using rev_ind.
  { exists c. split; [done | simpl; lia]. }
  rewrite execs_snoc, steps_of_app.
  destruct (exec_rank (execs s sched) l i c1) as (c2 & Hc2 & Hr2);
    [by rewrite execs_pool_size | done |].
  exists c2. split; [done | lia].
Qed.

Lemma rank_bound c w : (rank c w ≤ 6)%nat.
Proof. destruct c as [[]|[]| | | | |]; simpl; try lia. destruct (_ <? _); lia. Qed.

Lemma rank_zero_finished c w : rank c w = 0%nat → finished c = true.
Proof.
  destruct c as [[]|[]| | | | |]; simpl; try done. by destruct (_ <? _).
Qed.

(** [X16]  No call of [fetch] runs for ever.  On a pool of positive
    capacity, whatever the other callers do in between, a call has
    returned a handle or raised after at most six steps of its own (a
    blocking wait being one step, which ends when a record arrives or the
    timeout expires). *)
Theorem fetch_ends_within_six_steps
    uri pool_size recycle wait_timeout kw (before after : list label) i c :
  0 < pool_size →
  let s := execs (init (ConnectionPool.new uri pool_size recycle wait_timeout kw)) before in
  calls s !! i = Some c →
  (6 ≤ steps_of i after)%nat →
  ∃ c', calls (execs s after) !! i = Some c' ∧ finished c' = true.
Proof.
  intros Hsize s Hi Hsteps.
  destruct (execs_rank s after i c) as (c' & Hc' & Hr); [|done|].
  { unfold s. by rewrite execs_pool_size. }
  exists c'. split; [done|]. apply (rank_zero_finished c' (shared (execs s after))).
  pose proof (rank_bound c (shared s)). lia.
Qed.

Lemma fetch_ends_within_six_steps_witness :
  let before := [Fetch false; Step 0 5; Step 0 5; Step 0 5; Fetch false] in
  let after := [Step 1 6; Fetch true; Step 1 6; Step 2 6; Step 1 7; Close 0 8;
                Step 1 9; Step 1 9; Step 1 9] in
  let s := execs (init (ConnectionPool.new "tcp://127.0.0.1:19530" 1 (-1) 10
                          (mk_kwargs None false))) before in
  0 < 1 ∧ calls s !! 1%nat = Some (At_empty false) ∧ (6 ≤ steps_of 1 after)%nat ∧
  ∃ c', calls (execs s after) !! 1%nat = Some c' ∧ finished c' = true.
Proof.
  intros before after s. split; [lia|]. split; [reflexivity|].
  split; [by vm_compute|].
  apply (fetch_ends_within_six_steps "tcp://127.0.0.1:19530" 1 (-1) 10
           (mk_kwargs None false) before after 1 (At_empty false));
    [lia | reflexivity | by vm_compute].
Defined.

(** ** More on the statistics *)

Lemma record_duration_only_none d p :
  only_none p → only_none (ConnectionPool.record_duration None d p).
Proof.
  intros Hp k Hk. rewrite record_duration_lookup_ne by done. by apply Hp.
Qed.

Lemma close_only_none now p h : only_none p → only_none (ScopedConnection.close now p h).1.
Proof.
  intros Hp.
  assert (∀ conn, only_none (ConnectionPool.release conn p)) as Hrel.
  { intros conn k Hk. rewrite release_durations. by apply Hp. }
  unfold ScopedConnection.close.
  destruct (ScopedConnection._connection h), (ScopedConnection._duration h);
    cbn [fst snd ScopedConnection._duration ScopedConnection._connection conn_key
         fmap option_fmap option_map];
    try apply record_duration_only_none; auto.
Qed.

Lemma exec_only_none s l :
  only_none (pool (shared s)) → only_none (pool (shared (exec s l))).
Proof.
  intros Hs. destruct l as [b|i now|i now|conn]; simpl; try done.
  - destruct (calls s !! i) as [c|]; [|done].
    destruct (step now c (shared s)) as [[c' w'] evs] eqn:Hst.
    apply step_durations in Hst. simpl. intros k Hk. rewrite Hst. by apply Hs.
  - destruct (calls s !! i) as [[| | | | |h|]|]; try done.
    pose proof (close_only_none now (pool (shared s)) h Hs) as Hc.
    by destruct (ScopedConnection.close _ _ _).
  - intros k Hk. rewrite release_durations. by apply Hs.
Qed.

(** [X17]  All usage is booked on one key.  Along every schedule of fetch
    calls, steps, closes and direct releases on a freshly built pool, the
    only key [durations] ever has is [None]: no record identity gets a
    history, and [durations] tracks at most one key. *)
Theorem usage_is_booked_under_none
    uri pool_size recycle wait_timeout kw (sched : list label) :
  let p := pool (shared (execs (init (ConnectionPool.new uri pool_size recycle
                                        wait_timeout kw)) sched)) in
  (∀ conn : ConnectionRecord.t,
     ConnectionPool.durations p !! conn_key (Some conn) = None) ∧
  (size (ConnectionPool.durations p) ≤ 1)%nat.
Proof.
  intros p.
  assert (only_none p) as Hp.
  { subst p. induction sched as [|l sched IH] using rev_ind.
    - intros k _. apply lookup_empty.
    - rewrite execs_snoc. by apply exec_only_none. }
  split; [intros conn; by apply Hp|].
  destruct (ConnectionPool.durations p !! None) as [l|] eqn:Hl.
  - assert (ConnectionPool.durations p = {[None := l]}) as ->; [|by rewrite map_size_singleton].
    apply map_eq. intros k. destruct (decide (k = None)) as [->|Hk].
    + by rewrite lookup_singleton_eq.
    + rewrite lookup_singleton_ne by done. by apply Hp.
  - assert (ConnectionPool.durations p = ∅) as ->; [|by rewrite map_size_empty; lia].
    apply map_empty. intros k. destruct (decide (k = None)) as [->|Hk]; [done|].
    by apply Hp.
Qed.

Lemma py_sum_raises acc vs e :
  ConnectionPool.py_sum acc vs = Raise e →
  e = TypeError "unsupported operand type(s) for +".
Proof.
  revert acc. induction vs as [|[v|] vs IH]; intros acc H; simpl in H.
  - done.
  - by eapply IH.
  - by simplify_eq.
Qed.

Lemma py_sum_none acc vs :
  None ∈ vs →
  ConnectionPool.py_sum acc vs = Raise (TypeError "unsupported operand type(s) for +").
Proof.
  revert acc. induction vs as [|[v|] vs IH]; intros acc Hin; simpl.
  - by apply elem_of_nil in Hin.
  - apply IH. by apply elem_of_cons in Hin as [|].
  - done.
Qed.

Lemma stats_loop_none its conns take k ds :
  (k, ds) ∈ its → None ∈ Duration.value <$> ds →
  ConnectionPool.stats_loop its conns take
  = Raise (TypeError "unsupported operand type(s) for +").
Proof.
  intros Hin Hnone. revert conns take.
  induction its as [|[k0 ds0] its IH]; intros conns take.
  { by apply elem_of_nil in Hin. }
  simpl.
  destruct (ConnectionPool.py_sum 0 (Duration.value <$> ds0)) as [total|e] eqn:Hsum.
  - simpl. apply elem_of_cons in Hin as [Heq|Hin]; [|by apply IH].
    simplify_eq. by rewrite py_sum_none in Hsum.
  - simpl. by rewrite (py_sum_raises _ _ _ Hsum).
Qed.

(** [X18]  [stats()] cannot report on a duration that was not stopped: if
    any history holds a duration whose [value] is [None] (never stopped,
    or stopped at clock reading 0), [stats()] raises [TypeError] from the
    sum, whatever else was recorded. *)
Theorem stats_raises_on_unstopped_duration p k ds d :
  ConnectionPool.durations p !! k = Some ds →
  d ∈ ds →
  Duration.value d = None →
  ConnectionPool.stats p = Raise (TypeError "unsupported operand type(s) for +").
Proof.
  intros Hk Hd Hv. unfold ConnectionPool.stats.
  rewrite (stats_loop_none _ _ _ k ds); [done| |].
  - by apply elem_of_map_to_list.
  - rewrite <- Hv. by apply list_elem_of_fmap_2.
Qed.

Lemma stats_raises_on_unstopped_duration_witness :
  let p := ConnectionPool.record_duration (Some 0%nat) (Duration.new 7)
             (ConnectionPool.record_duration None (Duration.mk 1 (Some 4))
                (ConnectionPool.new "tcp://127.0.0.1:19530" 1 (-1) 10
                   (mk_kwargs None false))) in
  ConnectionPool.durations p !! Some 0%nat = Some [Duration.new 7] ∧
  Duration.new 7 ∈ [Duration.new 7] ∧
  Duration.value (Duration.new 7) = None ∧
  ConnectionPool.stats p = Raise (TypeError "unsupported operand type(s) for +").
Proof.
  intros p.
  assert (ConnectionPool.durations p !! Some 0%nat = Some [Duration.new 7]) as Hk
    by (by vm_compute).
  assert (Duration.new 7 ∈ [Duration.new 7]) as Hd by apply list_elem_of_here.
  split; [exact Hk|]. split; [exact Hd|]. split; [reflexivity|].
  apply (stats_raises_on_unstopped_duration p (Some 0%nat) [Duration.new 7]
           (Duration.new 7) Hk Hd). reflexivity.
Defined.

Lemma stats_stopped p :
  ConnectionPool.durations p ≠ ∅ → all_stopped p →
  ∃ out, ConnectionPool.stats p = Ok out ∧
         (∀ k, ConnectionPool.connections out !! k
               = stat_of <$> ConnectionPool.durations p !! k) ∧
         ConnectionPool.num out = size (ConnectionPool.durations p).
Proof.
  intros Hne Hst. unfold ConnectionPool.stats.
  rewrite stats_loop_stopped; cycle 1.
  { apply Forall_forall. intros [k ds] Hin.
    apply elem_of_map_to_list in Hin. by eapply Hst. }
  cbn [mbind result_bind]. rewrite app_nil_l.
  destruct (map_to_list (ConnectionPool.durations p)) as [|[k0 ds0] its] eqn:Hits.
  { by apply map_to_list_empty_iff in Hits. }
  cbn [fmap list_fmap ConnectionPool.py_max mbind result_bind]. rewrite <- Hits.
  eexists. split; [reflexivity|]. split; [|done]. intros k. simpl.
  rewrite lookup_foldl_insert_stat by apply NoDup_fst_map_to_list.
  rewrite list_to_map_to_list, lookup_empty.
  by destruct (ConnectionPool.durations p !! k).
Qed.

Lemma total_elapsed_snoc ds d : total_elapsed (ds ++ [d]) = total_elapsed ds + elapsed d.
Proof. induction ds as [|d0 ds IH]; simpl; [lia | rewrite IH; lia]. Qed.

(** [X19]  Record, then report.  After a stopped duration [d] is recorded
    for the key [k] on a pool whose recorded durations are all stopped,
    [stats()] succeeds.  When the history of [k] was below 10,000 entries,
    the entry of [k] counts one call more and its total time has grown by
    the elapsed time of [d]; the entries of the other keys are what the
    histories of the pool give, untouched by the recording. *)
Theorem stats_after_record_duration p k d :
  (∀ k' ds, ConnectionPool.durations p !! k' = Some ds → Forall stopped ds) →
  stopped d →
  let old := default [] (ConnectionPool.durations p !! k) in
  ∃ out,
    ConnectionPool.stats (ConnectionPool.record_duration k d p) = Ok out ∧
    (Z.of_nat (length old) < 10000 →
     ConnectionPool.connections out !! k
     = Some (ConnectionPool.mk_stat (total_elapsed old + elapsed d) (S (length old)))) ∧
    (∀ k', k' ≠ k →
           ConnectionPool.connections out !! k'
           = (fun ds => ConnectionPool.mk_stat (total_elapsed ds) (length ds))
               <$> ConnectionPool.durations p !! k').
Proof.
  intros Hst Hd old.
  destruct (stats_stopped (ConnectionPool.record_duration k d p))
    as (out & Hout & Hconns & _).
  { intros He. apply (f_equal (fun m => m !! k)) in He.
    by rewrite record_duration_lookup, lookup_empty in He. }
  { by apply record_duration_stopped. }
  exists out. split; [done|]. split.
  - intros Hlen. rewrite Hconns, record_duration_lookup. cbv zeta. fold old.
    destruct (Z.leb_spec 10000 (Z.of_nat (length old))); [lia|]. simpl.
    unfold stat_of. f_equal. f_equal.
    + apply total_elapsed_snoc.
    + rewrite length_app. simpl. lia.
  - intros k' Hk'. by rewrite Hconns, record_duration_lookup_ne.
Qed.

Lemma stats_after_record_duration_witness :
  let p := ConnectionPool.record_duration None (Duration.mk 1 (Some 4))
             (ConnectionPool.new "tcp://127.0.0.1:19530" 1 (-1) 10
                (mk_kwargs None false)) in
  let d := Duration.mk 10 (Some 17) in
  (∀ k' ds, ConnectionPool.durations p !! k' = Some ds → Forall stopped ds) ∧
  stopped d ∧
  ∃ out,
    ConnectionPool.stats (ConnectionPool.record_duration None d p) = Ok out ∧
    ConnectionPool.connections out !! None = Some (ConnectionPool.mk_stat 10 2).
Proof.
  intros p d.
  assert (∀ k' ds, ConnectionPool.durations p !! k' = Some ds → Forall stopped ds)
    as Hst.
  { apply record_duration_stopped; [reflexivity|].
    intros k' ds Hk. simpl in Hk. by rewrite lookup_empty in Hk. }
  assert (stopped d) as Hd by reflexivity.
  split; [exact Hst|]. split; [exact Hd|].
  destruct (stats_after_record_duration p None d Hst Hd) as (out & Hout & Hk & _).
  exists out. split; [exact Hout|]. rewrite Hk; [reflexivity | by vm_compute].
Defined.
